(** * srt-translate-pro: the translation dispatch engine of [trans.py]

    A shallow embedding of the engine of [src/trans.py] (the class
    [SmartTranslator], the two batch translators, [srt_to_string] and the
    per-file and multi-file drivers) together with the properties its
    specification states about it.

    Modelling conventions.
    - Python [str] is [string]; each character is one [ascii], and a code
      point above 127 stands as the bytes of its UTF-8 encoding.
    - Python [int] is [Z] (counters) or [nat] (indices, retry budgets).
    - Wall-clock readings ([time.time()]) and durations are exact rationals
      [Q], in seconds; the rounding of binary floating point is not modelled.
      The clock moves when the program sleeps.
    - A Python [dict] is a [gmap]; reading a missing key raises [KeyError].
    - A Python computation that may raise returns an [outcome]; the state it
      has mutated before raising is kept, as in Python.
    - The remote translation service, the random source, the thread
      scheduler and the [pysrt] library are parameters.
    - [target_language] is always the default ['vi'] and is left out; the
      progress callbacks, which only report to the user interface and are
      [None] by default, are left out too. *)

From Stdlib Require Import ZArith QArith Qround Lqa Lia List Ascii String DecimalString.
From stdpp Require Import gmap strings list fin_maps.

Local Open Scope Z_scope.
Local Open Scope string_scope.

(** ** Outcomes: a value or a raised exception *)

(** [Raise e] is a raised [Exception] whose [str(e)] is [e]. *)
Inductive outcome (A : Type) : Type :=
| Ret (a : A)
| Raise (e : string).
Arguments Ret {A} a.
Arguments Raise {A} e.

(** ** The world outside the program *)

(** What a call of [translator.translate(text, dest=...)] gives back: a result
    object whose [.text] is the translation, or an exception with its
    message. *)
Inductive PortResult : Type :=
| Translated (text : string)
| Failed (message : string).

(** The clock, the log of the remote calls made so far (most recent first),
    the number of random draws made so far and the number of scheduling
    decisions taken so far. *)
Record World : Type := mkWorld {
  clock : Q;
  calls : list string;
  draws : nat;
  ticks : nat
}.

(** [time.sleep(d)]: the clock moves on by [d]. *)
Definition sleep (d : Q) (w : World) : World :=
  mkWorld (clock w + d)%Q (calls w) (draws w) (ticks w).

(** Boolean comparison of clock readings. *)
Definition Qlt_bool (x y : Q) : bool := negb (Qle_bool y x).

(** ** Strings: the Python string operations the engine uses *)

(** The line feed character as a string. *)
Definition newline : string := String (ascii_of_nat 10) EmptyString.

(** [str(n)] for a non-negative integer. *)
Definition str_nat (n : nat) : string := NilZero.string_of_uint (Nat.to_uint n).

(** [needle in hay]. *)
Fixpoint contains (needle hay : string) : bool :=
  String.prefix needle hay ||
  match hay with
  | EmptyString => false
  | String _ rest => contains needle rest
  end.

(** [c.lower()] on one character; only the ASCII letters have a case. *)
Definition lower_ascii (c : ascii) : ascii :=
  let n := nat_of_ascii c in
  if ((65 <=? n) && (n <=? 90))%nat then ascii_of_nat (n + 32) else c.

(** [s.lower()]. *)
Fixpoint lower (s : string) : string :=
  match s with
  | EmptyString => EmptyString
  | String c rest => String (lower_ascii c) (lower rest)
  end.

(** [str(e)] of the [KeyError] raised by reading the missing key [i]. *)
Definition KeyError_message (i : nat) : string := str_nat i.

(** ** class SmartTranslator *)

(** [self.max_requests_per_minute] and [self.min_delay_between_requests] are
    assigned once in [__init__] and never written again, and [__init__] puts
    exactly four translators in [self.translators], which is never changed:
    they are constants of the model. *)
Definition max_requests_per_minute : Z := 45.
Definition min_delay_between_requests : Q := 8 # 100.
Definition n_translators : nat := 4.

Record SmartTranslator : Type := mkSmartTranslator {
  current_translator_index : nat;
  request_counts : gmap nat Z;
  last_request_times : gmap nat Q
}.

(** [__init__]: four slots, every counter and every last request time 0. *)
Definition SmartTranslator_init : SmartTranslator :=
  mkSmartTranslator 0
    (<[3%nat:=0]> (<[2%nat:=0]> (<[1%nat:=0]> (<[0%nat:=0]> ∅))))
    (<[3%nat:=0%Q]> (<[2%nat:=0%Q]> (<[1%nat:=0%Q]> (<[0%nat:=0%Q]> ∅)))).

Definition set_index (i : nat) (st : SmartTranslator) : SmartTranslator :=
  mkSmartTranslator i (request_counts st) (last_request_times st).

Definition set_count (i : nat) (c : Z) (st : SmartTranslator) : SmartTranslator :=
  mkSmartTranslator (current_translator_index st)
    (<[i:=c]> (request_counts st)) (last_request_times st).

Definition set_last (i : nat) (t : Q) (st : SmartTranslator) : SmartTranslator :=
  mkSmartTranslator (current_translator_index st)
    (request_counts st) (<[i:=t]> (last_request_times st)).

(** [get_next_translator]: the round-robin cursor moves on, wrapping; the
    translator handed out is identified by its index. *)
Definition get_next_translator (st : SmartTranslator) : nat * SmartTranslator :=
  let i := ((current_translator_index st + 1) mod n_translators)%nat in
  (i, set_index i st).

(** [should_wait(translator_index)] at clock reading [current_time]. *)
Definition should_wait (st : SmartTranslator) (current_time : Q) (translator_index : nat)
  : outcome bool * SmartTranslator :=
  match last_request_times st !! translator_index with
  | None => (Raise (KeyError_message translator_index), st)
  | Some last_request =>
    if Qlt_bool (current_time - last_request) min_delay_between_requests
    then (Ret true, st)
    else
      let st1 :=
        if Qlt_bool 60 (current_time - last_request)
        then set_count translator_index 0 st
        else st in
      match request_counts st1 !! translator_index with
      | None => (Raise (KeyError_message translator_index), st1)
      | Some count =>
        if (max_requests_per_minute <=? count)%Z
        then (Ret true, st1)
        else (Ret false, st1)
      end
  end.

(** The polling loop of [translate_with_smart_retry],
    [[
      while self.should_wait(translator_index):
          time.sleep(0.1)
          translator, translator_index = self.get_next_translator()
    ]]
    run for at most [fuel] tests of its condition; [None] when the fuel is
    used up before the loop is left. *)
Fixpoint wait_loop (fuel : nat) (st : SmartTranslator) (w : World) (translator_index : nat)
  : option (outcome nat * SmartTranslator * World) :=
  match fuel with
  | O => None
  | S fuel' =>
    match should_wait st (clock w) translator_index with
    | (Raise e, st1) => Some (Raise e, st1, w)
    | (Ret false, st1) => Some (Ret translator_index, st1, w)
    | (Ret true, st1) =>
      let w1 := sleep (1 # 10) w in
      let '(i, st2) := get_next_translator st1 in
      wait_loop fuel' st2 w1 i
    end
  end.

(** The number of polls of 0.1s after which the 60-second window of a slot
    last used at [last_request] has lapsed at a clock now reading [now]. *)
Definition polls_needed (now last_request : Q) : nat :=
  Z.to_nat (Qfloor (10 * (60 + last_request - now)) + 1).

(** A number of tests of the loop condition that is enough whatever the
    slots' counters are: by then the window of every slot has lapsed. *)
Definition wait_bound (st : SmartTranslator) (w : World) : nat :=
  S (foldr Nat.max 0%nat
       (map (fun kv => polls_needed (clock w) (snd kv))
            (map_to_list (last_request_times st)))).

(** The loop itself. [wait_loop_terminates] below shows that the bound is
    never used up, so the last branch is never taken. *)
Definition acquire (st : SmartTranslator) (w : World) (translator_index : nat)
  : outcome nat * SmartTranslator * World :=
  match wait_loop (wait_bound st w) st w translator_index with
  | Some r => r
  | None => (Raise "unreachable", st, w)
  end.

(** ** The remote port and the random source *)

Section Engine.

(** [port history text] is what the remote end answers to a request for
    [text] after the requests of [history]; [random n] is the [n]-th value
    of [random.random()]. Both are arbitrary. *)
Variable port : list string -> string -> PortResult.
Variable random : nat -> Q.

(** [translator.translate(text, dest=target_language)]: one remote call. *)
Definition translate (text : string) (w : World) : PortResult * World :=
  (port (calls w) text, mkWorld (clock w) (text :: calls w) (draws w) (ticks w)).

(** [random.uniform(a, b)], that is [a + (b - a) * random()]. *)
Definition uniform (a b : Q) (w : World) : Q * World :=
  ((a + (b - a) * random (draws w))%Q,
   mkWorld (clock w) (calls w) (S (draws w)) (ticks w)).

(** [time.sleep(random.uniform(a, b))]. *)
Definition sleep_uniform (a b : Q) (w : World) : World :=
  let '(d, w1) := uniform a b w in sleep d w1.

(** The iterations [attempt], [attempt + 1], ... of the loop
    [for attempt in range(max_retries)] of [translate_with_smart_retry];
    [remaining] is the number of iterations left. In an iteration,
    [attempted] is the outcome of the [try] block: [inl] the text to return,
    or [inr] the message of the exception that the [except] clause handles
    (the one of the port, or the [KeyError] of the counter update). When the
    handler ends without [continue] or [return] (a rate-limit error on the
    last attempt) the loop goes to its next iteration, if any, and then to
    the final [return text]. *)
Fixpoint retry_loop (remaining attempt max_retries : nat) (text : string)
    (st : SmartTranslator) (w : World) : outcome string * SmartTranslator * World :=
  match remaining with
  | O => (Ret text, st, w)
  | S remaining' =>
    let '(i0, st0) := get_next_translator st in
    match acquire st0 w i0 with
    | (Raise e, st1, w1) => (Raise e, st1, w1)
    | (Ret translator_index, st1, w1) =>
      let current_time := clock w1 in
      let '(answer, w2) := translate text w1 in
      let attempted :=
        match answer with
        | Failed e => (inr e, st1)
        | Translated result_text =>
          match request_counts st1 !! translator_index with
          | None => (inr (KeyError_message translator_index), st1)
          | Some count =>
            (inl result_text,
             set_last translator_index current_time
               (set_count translator_index (count + 1) st1))
          end
        end in
      match attempted with
      | (inl result_text, st2) => (Ret result_text, st2, w2)
      | (inr e, st2) =>
        if contains "429" e || contains "rate" (lower e) then
          let st3 := set_count translator_index max_requests_per_minute st2 in
          if (Z.of_nat attempt <? Z.of_nat max_retries - 1)%Z
          then retry_loop remaining' (S attempt) max_retries text st3
                 (sleep_uniform (5 # 10) (15 # 10) w2)
          else retry_loop remaining' (S attempt) max_retries text st3 w2
        else if (Z.of_nat attempt <? Z.of_nat max_retries - 1)%Z
        then retry_loop remaining' (S attempt) max_retries text st2
               (sleep_uniform (2 # 10) (8 # 10) w2)
        else (Ret text, st2, w2)
      end
    end
  end.

(** [translate_with_smart_retry(text, target_language, max_retries)]. *)
Definition translate_with_smart_retry (text : string) (max_retries : nat)
    (st : SmartTranslator) (w : World) : outcome string * SmartTranslator * World :=
  retry_loop max_retries 0 max_retries text st w.

(** ** The batch translators *)

(** [translate_batch_sequential(texts, smart_translator)]: the loop over
    [texts], started with the dictionary [results]. *)
Fixpoint translate_batch_sequential_loop (texts : list string)
    (results : gmap string string) (st : SmartTranslator) (w : World)
  : gmap string string * SmartTranslator * World :=
  match texts with
  | [] => (results, st, w)
  | text :: rest =>
    match translate_with_smart_retry text 3 st w with
    | (Ret translated, st1, w1) =>
      translate_batch_sequential_loop rest (<[text:=translated]> results) st1
        (sleep (5 # 100) w1)
    | (Raise _, st1, w1) =>
      translate_batch_sequential_loop rest (<[text:=text]> results) st1 w1
    end
  end.

Definition translate_batch_sequential (texts : list string)
    (st : SmartTranslator) (w : World) : gmap string string * SmartTranslator * World :=
  translate_batch_sequential_loop texts ∅ st w.

(** [range(0, stop, step)] for a positive [step]. *)
Definition range_step (stop step : nat) : list nat :=
  map (fun k => (k * step)%nat) (seq 0 ((stop + step - 1) / step)).

(** [l[i:i + size]]. *)
Definition slice {A : Type} (l : list A) (i size : nat) : list A :=
  take size (drop i l).

(** The batches [texts[i:i + batch_size]] for [i] in
    [range(0, len(texts), batch_size)]. *)
Definition batches (batch_size : nat) (texts : list string) : list (list string) :=
  map (fun i => slice texts i batch_size) (range_step (length texts) batch_size).

(** A running thread of [translate_worker(text_batch)]: the texts it has not
    reached yet and its local dictionary [batch_results]. *)
Record Worker : Type := mkWorker {
  todo : list string;
  batch_results : gmap string string
}.

(** The threads of [translate_batch_threaded_safe] interleave. The model
    takes one iteration of the loop of [translate_worker] (one call of
    [translate_with_smart_retry] with the bookkeeping around it) as the unit
    of interleaving: [sched n] chooses, at the [n]-th scheduling decision,
    which of the live threads runs its next step. Any interleaving of whole
    iterations is some [sched]; threads that run while the main thread is
    still starting others are covered, since starting a thread touches no
    shared state. The threads of the program hold no lock and can also be
    switched inside an iteration, between the test of a counter in
    [should_wait] and its update after the remote call: what the counters
    and the last request times are after threads have run is therefore not
    read off this model. What is stated of the threaded translator is what
    no finer interleaving changes: the keys of its result, the texts it
    sends, the number of attempts made for a text, and the value that a text
    gets from a port whose answer depends on the text alone. *)
Variable sched : nat -> nat.

Definition tick (w : World) : World :=
  mkWorld (clock w) (calls w) (draws w) (S (ticks w)).

(** One step of one worker: the next iteration of its loop, or, when its
    batch is done, [result_queue.put(batch_results)], which ends it. *)
Definition worker_step (wk : Worker) (st : SmartTranslator) (w : World)
  : option Worker * option (gmap string string) * SmartTranslator * World :=
  match todo wk with
  | [] => (None, Some (batch_results wk), st, w)
  | text :: rest =>
    match translate_with_smart_retry text 3 st w with
    | (Ret translated, st1, w1) =>
      (Some (mkWorker rest (<[text:=translated]> (batch_results wk))), None, st1,
       sleep (3 # 100) w1)
    | (Raise _, st1, w1) =>
      (Some (mkWorker rest (<[text:=text]> (batch_results wk))), None, st1, w1)
    end
  end.

(** [n] scheduling decisions over the live threads [pool]: the thread at
    position [sched (ticks w) mod length pool] runs one step. [queue] is
    [result_queue], oldest first. *)
Fixpoint run_workers (n : nat) (pool : list Worker) (queue : list (gmap string string))
    (st : SmartTranslator) (w : World)
  : list Worker * list (gmap string string) * SmartTranslator * World :=
  match n with
  | O => (pool, queue, st, w)
  | S n' =>
    let k := (sched (ticks w) mod length pool)%nat in
    match pool !! k with
    | None => (pool, queue, st, w)
    | Some wk =>
      match worker_step wk st (tick w) with
      | (Some wk', _, st1, w1) => run_workers n' (<[k:=wk']> pool) queue st1 w1
      | (None, put, st1, w1) =>
        run_workers n' (delete k pool) (queue ++ option_list put) st1 w1
      end
    end
  end.

(** The number of steps after which every thread of [pool] has ended. *)
Definition pool_steps (pool : list Worker) : nat :=
  foldr (fun wk acc => (S (length (todo wk)) + acc)%nat) 0%nat pool.

(** [results.update(batch_results)] for every dictionary of the queue, oldest
    first: a later dictionary overrides an earlier one. *)
Definition drain (queue : list (gmap string string)) (results : gmap string string)
  : gmap string string :=
  foldl (fun results batch_results => batch_results ∪ results) results queue.

(** [translate_batch_threaded_safe(texts, smart_translator)]: one thread per
    batch of five texts, all joined, then the queue drained. *)
Definition translate_batch_threaded_safe (texts : list string)
    (st : SmartTranslator) (w : World) : gmap string string * SmartTranslator * World :=
  let pool := map (fun batch => mkWorker batch ∅) (batches 5 texts) in
  let '(_, queue, st1, w1) := run_workers (pool_steps pool) pool [] st w in
  (drain queue ∅, st1, w1).

(** ** Subtitles and their serialization *)

(** A [datetime.time]: what [to_time()] returns. *)
Record time : Type := mkTime {
  hour : nat;
  minute : nat;
  second : nat;
  microsecond : nat
}.

(** The time stamps of a subtitle are [pysrt]'s [SubRipTime] objects, read
    here only through [to_time()]; [pysrt.from_string] parses a file. Neither
    is code of this repository: both are arbitrary, and both may raise. *)
Variable SubRipTime : Type.
Variable to_time : SubRipTime -> outcome time.

(** A [pysrt.SubRipItem]. *)
Record SubRipItem : Type := mkSubRipItem {
  index : Z;
  start : SubRipTime;
  end_ : SubRipTime;
  text : string
}.

Variable from_string : string -> outcome (list SubRipItem).

(** [f"{n:0{width}d}"] for a non-negative [n]. *)
Definition format_0d (width n : nat) : string :=
  let s := str_nat n in
  String.concat "" (repeat "0" (width - String.length s)) ++ s.

(** [f"{t.hour:02d}:{t.minute:02d}:{t.second:02d},{t.microsecond//1000:03d}"]. *)
Definition time_str (t : time) : string :=
  format_0d 2 (hour t) ++ ":" ++ format_0d 2 (minute t) ++ ":" ++
  format_0d 2 (second t) ++ "," ++ format_0d 3 (microsecond t / 1000).

(** The loop of [srt_to_string]: the lines appended to [result] for the
    subtitles [subs], the first of which is numbered [i]. *)
Fixpoint srt_lines (i : nat) (subs : list SubRipItem) : outcome (list string) :=
  match subs with
  | [] => Ret []
  | sub :: rest =>
    match to_time (start sub) with
    | Raise e => Raise e
    | Ret start_time =>
      match to_time (end_ sub) with
      | Raise e => Raise e
      | Ret end_time =>
        let start_str := time_str start_time in
        let end_str := time_str end_time in
        match srt_lines (S i) rest with
        | Raise e => Raise e
        | Ret lines =>
          Ret (str_nat i :: (start_str ++ " --> " ++ end_str) :: text sub :: "" :: lines)
        end
      end
    end
  end.

(** [srt_to_string(subs)]. *)
Definition srt_to_string (subs : list SubRipItem) : outcome string :=
  match srt_lines 1 subs with
  | Raise e => Raise e
  | Ret result => Ret (String.concat newline result)
  end.

(** ** Translating one file *)

(** [c.isspace()] on the ASCII characters: the tab, the line feed, the
    vertical tab, the form feed, the carriage return, the four separators
    28 to 31 and the space. A string stands for the bytes of its UTF-8
    encoding, and a byte above 127 is not taken for white space; the white
    space characters outside ASCII (U+0085, U+00A0, U+2000 and the like),
    which Python strips too, are not modelled: a text that begins or ends
    with one of them is outside the model. *)
Definition isspace (c : ascii) : bool :=
  let n := nat_of_ascii c in
  (((9 <=? n) && (n <=? 13)) || ((28 <=? n) && (n <=? 32)))%nat.

(** [s.lstrip()], [s.rstrip()] and [s.strip()]. *)
Fixpoint lstrip (s : string) : string :=
  match s with
  | EmptyString => EmptyString
  | String c rest => if isspace c then lstrip rest else s
  end.

Definition rstrip (s : string) : string :=
  string_of_list_ascii (rev (list_ascii_of_string
    (lstrip (string_of_list_ascii (rev (list_ascii_of_string s)))))).

Definition strip (s : string) : string := rstrip (lstrip s).

(** The truth value of a string: it is not empty. *)
Definition truthy (s : string) : bool :=
  match s with EmptyString => false | _ => true end.

(** The dictionary returned for one file. *)
Inductive FileTranslationResult : Type :=
| Success (filename content : string) (subtitle_count : nat)
| Error (filename error : string).

Definition result_filename (r : FileTranslationResult) : string :=
  match r with Success f _ _ => f | Error f _ => f end.

Inductive Status : Type := status_success | status_error.

Definition status (r : FileTranslationResult) : Status :=
  match r with Success _ _ _ => status_success | Error _ _ => status_error end.

(** [texts_to_translate]: the text of every subtitle whose stripped text is
    not empty, in order. *)
Definition texts_to_translate (subs : list SubRipItem) : list string :=
  map text (filter (fun sub => truthy (strip (text sub)) = true) subs).

(** The loop over the batches of 25 texts: a batch of at most 10 texts goes
    to the threaded translator, a larger one to the sequential one. *)
Fixpoint translate_batches (bs : list (list string)) (translated_texts : gmap string string)
    (st : SmartTranslator) (w : World) : gmap string string * SmartTranslator * World :=
  match bs with
  | [] => (translated_texts, st, w)
  | batch :: rest =>
    let '(batch_results, st1, w1) :=
      if (length batch <=? 10)%nat
      then translate_batch_threaded_safe batch st w
      else translate_batch_sequential batch st w in
    translate_batches rest (batch_results ∪ translated_texts) st1 (sleep (1 # 10) w1)
  end.

(** The loop that writes the translations back,
    [[
      for sub in subs:
          if sub.text.strip() and sub.text in translated_texts:
              sub.text = translated_texts[sub.text]
    ]] *)
Definition apply_translation (translated_texts : gmap string string) (sub : SubRipItem)
  : SubRipItem :=
  if truthy (strip (text sub)) then
    match translated_texts !! text sub with
    | Some translated => mkSubRipItem (index sub) (start sub) (end_ sub) translated
    | None => sub
    end
  else sub.

(** The subtitles [subs] as they are when [translate_single_file_ultra_fast]
    serializes them: texts collected, translated by batches with a new
    [SmartTranslator], and written back. *)
Definition translate_subs (subs : list SubRipItem) (w : World)
  : list SubRipItem * World :=
  match texts_to_translate subs with
  | [] => (subs, w)
  | texts =>
    let '(translated_texts, _, w1) :=
      translate_batches (batches 25 texts) ∅ SmartTranslator_init w in
    (map (apply_translation translated_texts) subs, w1)
  end.

(** [translate_single_file_ultra_fast(file_content, filename)], run without a
    progress callback (its default). *)
Definition translate_single_file_ultra_fast (file_content filename : string) (w : World)
  : FileTranslationResult * World :=
  match from_string file_content with
  | Raise e => (Error filename e, w)
  | Ret subs =>
    let total_subs := length subs in
    let '(subs1, w1) := translate_subs subs w in
    match srt_to_string subs1 with
    | Raise e => (Error filename e, w1)
    | Ret result => (Success filename result total_subs, w1)
    end
  end.

(** ** Translating several files *)

(** An element of [file_info_list]. *)
Record FileInfo : Type := mkFileInfo {
  name : string;
  content : string
}.

(** [translate_multiple_files_sequential(file_info_list)], run without
    progress callbacks. *)
Fixpoint translate_multiple_files_sequential (file_info_list : list FileInfo) (w : World)
  : list FileTranslationResult * World :=
  match file_info_list with
  | [] => ([], w)
  | file_info :: rest =>
    let '(result, w1) :=
      translate_single_file_ultra_fast (content file_info) (name file_info) w in
    let '(results, w2) := translate_multiple_files_sequential rest (sleep (2 # 10) w1) in
    (result :: results, w2)
  end.

End Engine.

(** ** Packaging and tallying the results *)

(** [file_info['status'] == 'success']. *)
Definition is_success (r : FileTranslationResult) : bool :=
  match r with Success _ _ _ => true | Error _ _ => false end.

Section Packaging.

(** [os.path.splitext] belongs to the standard library: it is a parameter. *)
Variable splitext : string -> string * string.

(** [create_zip_file(translated_files)]: the members that the loop writes to
    the archive with [writestr], in order, each with its name and its data.
    The bytes that [zipfile] makes of them are not modelled. *)
Fixpoint create_zip_file (translated_files : list FileTranslationResult)
  : list (string * string) :=
  match translated_files with
  | [] => []
  | file_info :: rest =>
    match file_info with
    | Success original_name content _ =>
      let name_without_ext := fst (splitext original_name) in
      let new_filename := name_without_ext ++ "_vietnamese.srt" in
      (new_filename, content) :: create_zip_file rest
    | Error _ _ => create_zip_file rest
    end
  end.

End Packaging.

(** The tallies that [main] shows after a run:
    [sum(1 for f in translated_files if f['status'] == 'success')],
    [len(translated_files) - success_count] and
    [sum(f.get('subtitle_count', 0) for f in translated_files
         if f['status'] == 'success')]. *)
Definition success_count (translated_files : list FileTranslationResult) : nat :=
  list_sum (map (fun f => if is_success f then 1%nat else 0%nat) translated_files).

Definition error_count (translated_files : list FileTranslationResult) : nat :=
  (length translated_files - success_count translated_files)%nat.

Definition total_lines_translated (translated_files : list FileTranslationResult) : nat :=
  list_sum (map (fun f => match f with
                          | Success _ _ subtitle_count => subtitle_count
                          | Error _ _ => 0%nat
                          end) translated_files).

(** * Notions used to state the properties *)

(** ** The translator and its remote calls *)

(** The object invariant of [SmartTranslator]: the four slots have a counter
    and a last request time. [__init__] sets it up and no method breaks it. *)
Definition wf (st : SmartTranslator) : Prop :=
  forall i, (i < n_translators)%nat ->
    is_Some (request_counts st !! i) /\ is_Some (last_request_times st !! i).

(** The request count of a slot within the current window: zero once more
    than 60 seconds have passed since the slot's last request. *)
Definition window_count (now last_request : Q) (count : Z) : Z :=
  if Qlt_bool 60 (now - last_request) then 0 else count.

(** The retrying translator in the specification's words: up to [remaining]
    attempts, each a remote call recorded in [log]; the first success is
    returned at once, and when no attempt is left the original text is. *)
Fixpoint attempts (port : list string -> string -> PortResult)
    (remaining : nat) (text : string) (log : list string) : string * list string :=
  match remaining with
  | O => (text, log)
  | S remaining' =>
    match port log text with
    | Translated translated => (translated, text :: log)
    | Failed _ => attempts port remaining' text (text :: log)
    end
  end.

(** What the retrying translator makes of a text when the answer of the port
    depends on the text alone. *)
Definition port_translation (port : list string -> string -> PortResult)
    (text : string) : string :=
  match port [] text with
  | Translated translated => translated
  | Failed _ => text
  end.

(** Every entry of a dictionary satisfies [P key value]. *)
Definition entries_satisfy (P : string -> string -> Prop) (m : gmap string string) : Prop :=
  forall t v, m !! t = Some v -> P t v.

(** A dictionary all of whose values are the port's translation of their key. *)
Definition translated_by (port : list string -> string -> PortResult)
    (m : gmap string string) : Prop :=
  entries_satisfy (fun t v => v = port_translation port t) m.

(** The value [v] is the text [t] itself or a translation the port gave for
    it. *)
Definition translation_or_text (port : list string -> string -> PortResult)
    (t v : string) : Prop :=
  v = t \/ exists h, port h t = Translated v.

(** The number of remote calls made so far for the text [t]. *)
Definition ncalls (t : string) (w : World) : nat := count_occ string_dec (calls w) t.

(** Between the worlds [w] and [w'] the text [t] was requested [lo] to
    [hi] times for each of [n] occurrences. *)
Definition calls_within (lo hi : nat) (t : string) (n : nat) (w w' : World) : Prop :=
  (ncalls t w + lo * n <= ncalls t w' <= ncalls t w + hi * n)%nat.

(** The occurrences of [t] that the workers of a pool have not reached yet. *)
Definition pool_todo (t : string) (pool : list Worker) : nat :=
  count_occ string_dec (concat (map todo pool)) t.

(** The texts a pool still has to translate or has translated already, and
    the keys of the dictionaries of a queue. *)
Definition pool_keys (pool : list Worker) : gset string :=
  ⋃ (map (fun wk => dom (batch_results wk) ∪ list_to_set (todo wk)) pool).

Definition queue_keys (queue : list (gmap string string)) : gset string :=
  ⋃ (map dom queue).

(** ** Serialization *)

(** A digit, and the two- and three-digit decimal numerals. *)
Definition digit (d : nat) : ascii := ascii_of_nat (48 + d).

Definition two_digits (n : nat) : string :=
  String (digit (n / 10)) (String (digit (n mod 10)) EmptyString).

Definition three_digits (n : nat) : string :=
  String (digit (n / 100))
    (String (digit (n / 10 mod 10)) (String (digit (n mod 10)) EmptyString)).

(** The fields of a [datetime.time] are within these ranges. *)
Definition valid_time (t : time) : Prop :=
  (hour t < 24)%nat /\ (minute t < 60)%nat /\ (second t < 60)%nat /\
  (microsecond t < 1000 * 1000)%nat.

(** Every line followed by a line feed. *)
Definition unlines (lines : list string) : string :=
  String.concat "" (map (fun l => (l +:+ newline)%string) lines).

(** Serialization in the specification's words: for each entry in order its
    sequence number, counted from [i], its timing line and its text, each on
    a line, and a blank line after every entry, the last one included. *)
Fixpoint serialize (SubRipTime : Type) (to_time : SubRipTime -> outcome time)
    (i : nat) (subs : list (SubRipItem SubRipTime)) : outcome string :=
  match subs with
  | [] => Ret EmptyString
  | sub :: rest =>
    match to_time (start _ sub) with
    | Raise e => Raise e
    | Ret start_time =>
      match to_time (end_ _ sub) with
      | Raise e => Raise e
      | Ret end_time =>
        match serialize SubRipTime to_time (S i) rest with
        | Raise e => Raise e
        | Ret tail =>
          Ret (str_nat i +:+ newline +:+
               (time_str start_time +:+ " --> " +:+ time_str end_time) +:+ newline +:+
               text _ sub +:+ newline +:+
               newline +:+ tail)%string
        end
      end
    end
  end.

(** Two documents that differ at most in the [index] fields of their
    entries. *)
Definition same_but_index (SubRipTime : Type)
    (subs' subs : list (SubRipItem SubRipTime)) : Prop :=
  Forall2 (fun a b => start _ a = start _ b /\ end_ _ a = end_ _ b /\ text _ a = text _ b)
    subs' subs.

(** ** Notions for the further properties *)

(** Every character of the string is white space, as [isspace] has it. *)
Fixpoint all_space (s : string) : bool :=
  match s with
  | EmptyString => true
  | String c rest => isspace c && all_space rest
  end.

(** No counter of the translator is negative or above the limit. *)
Definition counters_bounded (st : SmartTranslator) : Prop :=
  forall i count, request_counts st !! i = Some count ->
    (0 <= count <= max_requests_per_minute)%Z.

(** Between the worlds [w] and [w'] remote calls were made for texts of
    [texts] only. *)
Definition sent_only (texts : list string) (w w' : World) : Prop :=
  exists extra, calls w' = (extra ++ calls w)%list /\ forall t, In t extra -> In t texts.

(** The entry [sub] with the text that [g] makes of its text, unless its
    text is blank. *)
Definition retext (SubRipTime : Type) (g : string -> string) (sub : SubRipItem SubRipTime)
  : SubRipItem SubRipTime :=
  if truthy (strip (text _ sub))
  then mkSubRipItem _ (index _ sub) (start _ sub) (end_ _ sub) (g (text _ sub))
  else sub.


(** The number of entries that parsing finds in a file, 0 when parsing
    raises. *)
Definition parsed_entries (SubRipTime : Type)
    (from_string : string -> outcome (list (SubRipItem SubRipTime)))
    (file_info : FileInfo) : nat :=
  match from_string (content file_info) with
  | Ret subs => length subs
  | Raise _ => 0%nat
  end.

(** The cursor of the translator after [n] calls of [get_next_translator]. *)
Fixpoint after_calls (n : nat) (st : SmartTranslator) : SmartTranslator :=
  match n with
  | O => st
  | S n' => snd (get_next_translator (after_calls n' st))
  end.

(** ** Sample data, used where a statement is run on concrete input *)

(** A port that fails on every call, and one that is rate-limited on every
    call. *)
Definition port_down (history : list string) (text : string) : PortResult :=
  Failed "connection refused".


(** A port that translates "Hello" and marks every other text. *)
Definition port_vi (history : list string) (text : string) : PortResult :=
  if String.eqb text "Hello" then Translated "Xin chao"
  else Translated ("vi:" ++ text)%string.

Definition random_half (n : nat) : Q := 1 # 2.

Definition round_robin (n : nat) : nat := n.

Definition world0 : World := mkWorld (1700000000 # 1) [] 0 0.

Definition seven_texts : list string := ["a"; "Hello"; "a"; "b"; "c"; "d"; "e"]%string.

(** A document of one entry, with time stamps that are already
    [datetime.time] values. *)
Definition one_hello : list (SubRipItem time) :=
  [mkSubRipItem time 1 (mkTime 0 0 1 0) (mkTime 0 0 2 (500 * 1000)) "Hello"].

(** A document whose entries carry the indices 5, 9 and 9. *)
Definition numbered_5_9_9 : list (SubRipItem time) :=
  [mkSubRipItem time 5 (mkTime 0 0 1 0) (mkTime 0 0 2 0) "a";
   mkSubRipItem time 9 (mkTime 0 0 3 0) (mkTime 0 0 4 0) "b";
   mkSubRipItem time 9 (mkTime 0 0 5 0) (mkTime 0 0 6 0) "c"].

Definition lines_5_9_9 : list string :=
  ["1"; "00:00:01,000 --> 00:00:02,000"; "a"; "";
   "2"; "00:00:03,000 --> 00:00:04,000"; "b"; "";
   "3"; "00:00:05,000 --> 00:00:06,000"; "c"; ""]%string.

(** The document of the end-to-end scenario: two entries that say "Hello". *)
Definition two_hello : list (SubRipItem time) :=
  [mkSubRipItem time 1 (mkTime 0 0 1 0) (mkTime 0 0 2 (500 * 1000)) "Hello";
   mkSubRipItem time 2 (mkTime 0 0 3 0) (mkTime 0 0 4 0) "Hello"].

(** A document of three entries that all say "Hello". *)
Definition three_hello : list (SubRipItem time) :=
  [mkSubRipItem time 1 (mkTime 0 0 1 0) (mkTime 0 0 2 0) "Hello";
   mkSubRipItem time 2 (mkTime 0 0 3 0) (mkTime 0 0 4 0) "Hello";
   mkSubRipItem time 3 (mkTime 0 0 5 0) (mkTime 0 0 6 0) "Hello"].

(** A document whose entries are blank. *)
Definition blank_entries : list (SubRipItem time) :=
  [mkSubRipItem time 1 (mkTime 0 0 1 0) (mkTime 0 0 2 0) "  ";
   mkSubRipItem time 2 (mkTime 0 0 3 0) (mkTime 0 0 4 0) ""].

(** C1 as stated: one remote call for each distinct text to translate. *)
Definition one_call_per_distinct_text
    (port : list string -> string -> PortResult) (random : nat -> Q) (sched : nat -> nat)
    (subs : list (SubRipItem time)) (w : World) : Prop :=
  forall t, In t (texts_to_translate time subs) ->
    ncalls t (translate_subs port random sched time subs w).2 = (ncalls t w + 1)%nat.

(** * Properties *)

Local Open Scope list_scope.
Set Warnings "-clear-no-such-hyp".

(** Splits a conjunction into its conjuncts, and nothing else. *)
Ltac conj := repeat match goal with |- _ /\ _ => split end.

(** ** Comparisons of clock readings *)

Lemma Qlt_bool_iff (x y : Q) : Qlt_bool x y = true <-> (x < y)%Q.
Proof.
  unfold Qlt_bool. rewrite negb_true_iff. split.
  - intros H. apply Qnot_le_lt. intros Hle.
    apply Qle_bool_iff in Hle. congruence.
  - intros H. destruct (Qle_bool y x) eqn:E; [|reflexivity].
    apply Qle_bool_iff in E. exfalso. apply (Qlt_not_le _ _ H E).
Qed.

Lemma Qlt_bool_false_iff (x y : Q) : Qlt_bool x y = false <-> (y <= x)%Q.
Proof.
  unfold Qlt_bool. rewrite negb_false_iff. apply Qle_bool_iff.
Qed.

(** ** The slot pool *)

Lemma should_wait_last_request_times st now i :
  last_request_times (snd (should_wait st now i)) = last_request_times st.
Proof.
  unfold should_wait.
  destruct (last_request_times st !! i) as [l|]; [|reflexivity].
  destruct (Qlt_bool (now - l) min_delay_between_requests); [reflexivity|].
  destruct (Qlt_bool 60 (now - l)); simpl;
    repeat match goal with
    | |- context [match ?x with _ => _ end] => destruct x
    end; reflexivity.
Qed.

(** A slot whose window has lapsed is eligible, whatever its counter. *)
Lemma should_wait_lapsed st now i l :
  last_request_times st !! i = Some l ->
  (l + 60 < now)%Q ->
  should_wait st now i = (Ret false, set_count i 0 st).
Proof.
  intros Hl Hlt. unfold should_wait. rewrite Hl.
  assert (H1 : Qlt_bool (now - l) min_delay_between_requests = false).
  { apply Qlt_bool_false_iff. unfold min_delay_between_requests. lra. }
  assert (H2 : Qlt_bool 60 (now - l) = true).
  { apply Qlt_bool_iff. lra. }
  rewrite H1, H2. simpl. rewrite lookup_insert_eq. reflexivity.
Qed.

Lemma wait_loop_terminates_aux m : forall st w i,
  (forall j l, last_request_times st !! j = Some l ->
     (l + 60 < clock w + inject_Z (Z.of_nat m) * (1 # 10))%Q) ->
  wait_loop (S m) st w i <> None.
Proof.
  induction m as [|m IH]; intros st w i Hw.
  - simpl. destruct (last_request_times st !! i) as [l|] eqn:El.
    + rewrite (should_wait_lapsed st (clock w) i l El); [discriminate|].
      specialize (Hw i l El).
      change (inject_Z (Z.of_nat 0)) with 0%Q in Hw. lra.
    + unfold should_wait. rewrite El. discriminate.
  - change (wait_loop (S (S m)) st w i) with
      (match should_wait st (clock w) i with
       | (Raise e, st1) => Some (Raise e, st1, w)
       | (Ret false, st1) => Some (Ret i, st1, w)
       | (Ret true, st1) =>
         let w1 := sleep (1 # 10) w in
         let '(i', st2) := get_next_translator st1 in
         wait_loop (S m) st2 w1 i'
       end).
    pose proof (should_wait_last_request_times st (clock w) i) as Hl.
    destruct (should_wait st (clock w) i) as [[[|]|e] st1]; try discriminate.
    simpl in Hl. cbv zeta. unfold get_next_translator.
    apply IH. intros j l Hj. simpl in Hj. rewrite Hl in Hj.
    specialize (Hw j l Hj). simpl clock.
    rewrite Nat2Z.inj_succ in Hw. unfold Z.succ in Hw.
    rewrite inject_Z_plus in Hw.
    change (inject_Z 1) with 1%Q in Hw. lra.
Qed.

Lemma polls_needed_enough now l :
  (l + 60 < now + inject_Z (Z.of_nat (polls_needed now l)) * (1 # 10))%Q.
Proof.
  unfold polls_needed.
  set (x := (10 * (60 + l - now))%Q).
  pose proof (Qlt_floor x) as Hx.
  assert (Hz : (Qfloor x + 1 <= Z.of_nat (Z.to_nat (Qfloor x + 1)))%Z) by lia.
  assert (Hq : (inject_Z (Qfloor x + 1) <= inject_Z (Z.of_nat (Z.to_nat (Qfloor x + 1))))%Q).
  { rewrite <- Zle_Qle. exact Hz. }
  subst x. lra.
Qed.

Lemma foldr_max_ge (l : list nat) (n : nat) :
  In n l -> (n <= foldr Nat.max 0 l)%nat.
Proof.
  induction l as [|a l IH]; simpl; [tauto|].
  intros [->|H]; [lia|]. specialize (IH H). lia.
Qed.

(** The polling loop ends within [wait_bound st w] tests of its condition. *)
Lemma wait_loop_terminates st w i :
  wait_loop (wait_bound st w) st w i <> None.
Proof.
  unfold wait_bound. apply wait_loop_terminates_aux.
  intros j l Hj.
  set (m := foldr Nat.max 0%nat _).
  assert (Hm : (polls_needed (clock w) l <= m)%nat).
  { apply foldr_max_ge. apply in_map_iff. exists (j, l). split; [reflexivity|].
    apply list_elem_of_In. apply elem_of_map_to_list. exact Hj. }
  pose proof (polls_needed_enough (clock w) l) as Hp.
  assert (Hq : (inject_Z (Z.of_nat (polls_needed (clock w) l)) <= inject_Z (Z.of_nat m))%Q).
  { rewrite <- Zle_Qle. lia. }
  lra.
Qed.

Lemma wf_init : wf SmartTranslator_init.
Proof.
  intros i Hi. unfold n_translators in Hi.
  destruct i as [|[|[|[|i]]]]; try lia; split; eexists; reflexivity.
Qed.

Lemma wf_set_count i c st : wf st -> wf (set_count i c st).
Proof.
  intros H j Hj. destruct (H j Hj) as [Hc Hl]. split; [|exact Hl].
  simpl. destruct (decide (i = j)) as [->|Hne].
  - rewrite lookup_insert_eq. eauto.
  - rewrite lookup_insert_ne by exact Hne. exact Hc.
Qed.

Lemma wf_set_last i t st : wf st -> wf (set_last i t st).
Proof.
  intros H j Hj. destruct (H j Hj) as [Hc Hl]. split; [exact Hc|].
  simpl. destruct (decide (i = j)) as [->|Hne].
  - rewrite lookup_insert_eq. eauto.
  - rewrite lookup_insert_ne by exact Hne. exact Hl.
Qed.

Lemma wf_set_index i st : wf st -> wf (set_index i st).
Proof. intros H j Hj. exact (H j Hj). Qed.

Lemma get_next_translator_lt st :
  (fst (get_next_translator st) < n_translators)%nat.
Proof.
  unfold get_next_translator, fst.
  apply Nat.mod_upper_bound. discriminate.
Qed.

Lemma get_next_translator_wf st : wf st -> wf (snd (get_next_translator st)).
Proof. intros H. apply wf_set_index. exact H. Qed.

(** On a well-formed translator [should_wait] raises nothing. *)
Lemma should_wait_wf st now i :
  wf st -> (i < n_translators)%nat ->
  exists b st1, should_wait st now i = (Ret b, st1) /\ wf st1.
Proof.
  intros H Hi. destruct (H i Hi) as [[c Hc] [l Hl]].
  unfold should_wait. rewrite Hl.
  destruct (Qlt_bool (now - l) min_delay_between_requests); [eauto|].
  destruct (Qlt_bool 60 (now - l)).
  - simpl. rewrite lookup_insert_eq. simpl.
    eexists _, _. split; [reflexivity|]. apply wf_set_count. exact H.
  - rewrite Hc. destruct (max_requests_per_minute <=? c)%Z; eauto.
Qed.

(** What the polling loop leaves behind on a well-formed translator: a slot
    index, and a world in which only the clock has moved. *)
Lemma wait_loop_wf fuel : forall st w i r,
  wait_loop fuel st w i = Some r ->
  wf st -> (i < n_translators)%nat ->
  exists j st1 w1, r = (Ret j, st1, w1) /\ (j < n_translators)%nat /\ wf st1 /\
    calls w1 = calls w /\ draws w1 = draws w /\ ticks w1 = ticks w.
Proof.
  induction fuel as [|fuel IH]; intros st w i r Hr Hwf Hi; [discriminate|].
  simpl in Hr.
  destruct (should_wait_wf st (clock w) i Hwf Hi) as (b & st1 & Hsw & Hwf1).
  rewrite Hsw in Hr. destruct b.
  - apply IH in Hr.
    + destruct Hr as (j & st2 & w2 & -> & Hj & Hwf2 & Hc & Hd & Ht).
      simpl in Hc, Hd, Ht. exists j, st2, w2. conj; auto.
    + apply wf_set_index. exact Hwf1.
    + apply (get_next_translator_lt st1).
  - injection Hr as <-. exists i, st1, w. conj; auto.
Qed.

Lemma acquire_wf st w i :
  wf st -> (i < n_translators)%nat ->
  exists j st1 w1, acquire st w i = (Ret j, st1, w1) /\ (j < n_translators)%nat /\
    wf st1 /\ calls w1 = calls w /\ draws w1 = draws w /\ ticks w1 = ticks w.
Proof.
  intros Hwf Hi. unfold acquire.
  destruct (wait_loop (wait_bound st w) st w i) as [r|] eqn:E.
  - exact (wait_loop_wf _ _ _ _ _ E Hwf Hi).
  - exfalso. exact (wait_loop_terminates st w i E).
Qed.

(** ** The retrying translator *)

Section Retry.

Variable port : list string -> string -> PortResult.
Variable random : nat -> Q.

Lemma sleep_uniform_calls a b w : calls (sleep_uniform random a b w) = calls w.
Proof. reflexivity. Qed.

Lemma sleep_uniform_ticks a b w : ticks (sleep_uniform random a b w) = ticks w.
Proof. reflexivity. Qed.

(** On a well-formed translator the retry loop raises nothing, and its
    result and its remote calls are those of [attempts port]. *)
Lemma retry_loop_wf remaining : forall attempt max_retries text st w,
  wf st -> (attempt + remaining = max_retries)%nat ->
  exists st' w',
    retry_loop port random remaining attempt max_retries text st w
      = (Ret (fst (attempts port remaining text (calls w))), st', w') /\
    wf st' /\
    calls w' = snd (attempts port remaining text (calls w)) /\
    ticks w' = ticks w.
Proof.
  induction remaining as [|remaining IH]; intros attempt max_retries text st w Hwf Hn.
  - exists st, w. simpl. conj; auto.
  - cbn [retry_loop attempts].
    destruct (get_next_translator st) as [i0 st0] eqn:Enext.
    assert (Hi0 : (i0 < n_translators)%nat).
    { pose proof (get_next_translator_lt st) as H. rewrite Enext in H. exact H. }
    assert (Hwf0 : wf st0).
    { pose proof (get_next_translator_wf st Hwf) as H. rewrite Enext in H. exact H. }
    destruct (acquire_wf st0 w i0 Hwf0 Hi0)
      as (j & st1 & w1 & -> & Hj & Hwf1 & Hc1 & _ & Ht1).
    unfold translate. rewrite Hc1.
    destruct (port (calls w) text) as [translated|e].
    + destruct (Hwf1 j Hj) as [[c ->] _]. simpl.
      eexists _, _. conj; [reflexivity| |reflexivity|exact Ht1].
      apply wf_set_last, wf_set_count, Hwf1.
    + destruct (contains "429" e || contains "rate" (lower e)).
      * assert (Hwf3 : wf (set_count j max_requests_per_minute st1))
          by (apply wf_set_count, Hwf1).
        destruct (Z.of_nat attempt <? Z.of_nat max_retries - 1)%Z.
        -- destruct (IH (S attempt) max_retries text _
                      (sleep_uniform random (5 # 10) (15 # 10)
                         (mkWorld (clock w1) (text :: calls w) (draws w1) (ticks w1)))
                      Hwf3 ltac:(lia))
             as (st' & w' & -> & Hwf' & Hc' & Ht').
           rewrite sleep_uniform_calls in Hc'. rewrite sleep_uniform_ticks in Ht'.
           simpl in Hc', Ht'.
           eexists _, _. conj; [reflexivity|exact Hwf'|exact Hc'|congruence].
        -- destruct (IH (S attempt) max_retries text _
                      (mkWorld (clock w1) (text :: calls w) (draws w1) (ticks w1))
                      Hwf3 ltac:(lia))
             as (st' & w' & -> & Hwf' & Hc' & Ht').
           simpl in Hc', Ht'.
           eexists _, _. conj; [reflexivity|exact Hwf'|exact Hc'|congruence].
      * destruct (Z.of_nat attempt <? Z.of_nat max_retries - 1)%Z eqn:Elast.
        -- destruct (IH (S attempt) max_retries text _
                      (sleep_uniform random (2 # 10) (8 # 10)
                         (mkWorld (clock w1) (text :: calls w) (draws w1) (ticks w1)))
                      Hwf1 ltac:(lia))
             as (st' & w' & -> & Hwf' & Hc' & Ht').
           rewrite sleep_uniform_calls in Hc'. rewrite sleep_uniform_ticks in Ht'.
           simpl in Hc', Ht'.
           eexists _, _. conj; [reflexivity|exact Hwf'|exact Hc'|congruence].
        -- apply Z.ltb_ge in Elast.
           assert (remaining = 0%nat) as -> by lia. simpl.
           eexists _, _. conj; [reflexivity|exact Hwf1|reflexivity|exact Ht1].
Qed.

(** [translate_with_smart_retry] on a well-formed translator. *)
Lemma translate_with_smart_retry_wf text max_retries st w :
  wf st ->
  exists st' w',
    translate_with_smart_retry port random text max_retries st w
      = (Ret (fst (attempts port max_retries text (calls w))), st', w') /\
    wf st' /\
    calls w' = snd (attempts port max_retries text (calls w)) /\
    ticks w' = ticks w.
Proof.
  intros Hwf. unfold translate_with_smart_retry.
  apply retry_loop_wf; [exact Hwf|reflexivity].
Qed.

End Retry.

Section RetryResult.

Variable port : list string -> string -> PortResult.
Variable random : nat -> Q.

Lemma repeat_snoc_app {A : Type} (x : A) (k : nat) (l : list A) :
  repeat x k ++ x :: l = repeat x (S k) ++ l.
Proof.
  induction k as [|k IH]; [reflexivity|].
  simpl. f_equal. exact IH.
Qed.

(** When every attempt fails, [attempts] uses them all and gives the text back. *)
Lemma attempts_all_fail n : forall text log,
  (forall k, (k < n)%nat -> exists e, port (repeat text k ++ log) text = Failed e) ->
  attempts port n text log = (text, repeat text n ++ log).
Proof.
  induction n as [|n IH]; intros text log Hfail; [reflexivity|].
  cbn [attempts].
  destruct (Hfail 0%nat ltac:(lia)) as [e He]. simpl in He. rewrite He.
  rewrite IH.
  - rewrite repeat_snoc_app. reflexivity.
  - intros k Hk. destruct (Hfail (S k) ltac:(lia)) as [e' He'].
    exists e'. rewrite repeat_snoc_app. exact He'.
Qed.

(** When attempt [k] is the first to succeed, [attempts] stops there. *)
Lemma attempts_first_success n : forall k text log translated,
  (k < n)%nat ->
  (forall j, (j < k)%nat -> exists e, port (repeat text j ++ log) text = Failed e) ->
  port (repeat text k ++ log) text = Translated translated ->
  attempts port n text log = (translated, repeat text (S k) ++ log).
Proof.
  induction n as [|n IH]; intros k text log translated Hk Hfail Hok; [lia|].
  cbn [attempts]. destruct k as [|k].
  - simpl in Hok. rewrite Hok. reflexivity.
  - destruct (Hfail 0%nat ltac:(lia)) as [e He]. simpl in He. rewrite He.
    rewrite (IH k text (text :: log) translated ltac:(lia)).
    + rewrite repeat_snoc_app. reflexivity.
    + intros j Hj. destruct (Hfail (S j) ltac:(lia)) as [e' He'].
      exists e'. rewrite repeat_snoc_app. exact He'.
    + rewrite repeat_snoc_app. exact Hok.
Qed.

(** C2. Whatever the text and whatever the port answers,
    [translate_with_smart_retry] on a translator as [__init__] and the
    methods leave it returns a string and raises nothing. The answers of the
    port to its successive attempts are [port (repeat text k ++ calls w) text]
    for [k = 0, 1, ...]: when all [max_retries] of them are failures the
    result is the original text and exactly [max_retries] remote calls were
    made; when attempt [k] is the first success, the result is that
    translation and no further call was made. *)
Theorem translate_with_smart_retry_never_raises
    (text : string) (max_retries : nat) (st : SmartTranslator) (w : World) :
  wf st ->
  exists r st' w',
    translate_with_smart_retry port random text max_retries st w = (Ret r, st', w') /\
    ((forall k, (k < max_retries)%nat ->
        exists e, port (repeat text k ++ calls w) text = Failed e) ->
     r = text /\ calls w' = repeat text max_retries ++ calls w) /\
    (forall k translated, (k < max_retries)%nat ->
       (forall j, (j < k)%nat ->
          exists e, port (repeat text j ++ calls w) text = Failed e) ->
       port (repeat text k ++ calls w) text = Translated translated ->
       r = translated /\ calls w' = repeat text (S k) ++ calls w).
Proof.
  intros Hwf.
  destruct (translate_with_smart_retry_wf port random text max_retries st w Hwf)
    as (st' & w' & Heq & _ & Hcalls & _).
  eexists _, st', w'. split; [exact Heq|]. split.
  - intros Hfail. rewrite Hcalls.
    rewrite (attempts_all_fail max_retries text (calls w) Hfail). split; reflexivity.
  - intros k translated Hk Hfail Hok. rewrite Hcalls.
    rewrite (attempts_first_success max_retries k text (calls w) translated Hk Hfail Hok).
    split; reflexivity.
Qed.

End RetryResult.

Lemma translate_with_smart_retry_never_raises_witness :
  exists r st' w',
    translate_with_smart_retry port_down random_half "Hello" 3 SmartTranslator_init world0
      = (Ret r, st', w') /\
    ((forall k, (k < 3)%nat ->
        exists e, port_down (repeat "Hello" k ++ calls world0) "Hello" = Failed e) ->
     r = "Hello" /\ calls w' = repeat "Hello" 3 ++ calls world0) /\
    (forall k translated, (k < 3)%nat ->
       (forall j, (j < k)%nat ->
          exists e, port_down (repeat "Hello" j ++ calls world0) "Hello" = Failed e) ->
       port_down (repeat "Hello" k ++ calls world0) "Hello" = Translated translated ->
       r = translated /\ calls w' = repeat "Hello" (S k) ++ calls world0).
Proof.
  apply (translate_with_smart_retry_never_raises port_down random_half
           "Hello" 3 SmartTranslator_init world0).
  intros i Hi. unfold n_translators in Hi.
  destruct i as [|[|[|[|i]]]]; try lia; split; eexists; reflexivity.
Defined.

(** ** Eligibility of a slot *)

Lemma window_count_lapsed now last_request count :
  (60 < now - last_request)%Q -> window_count now last_request count = 0.
Proof.
  intros H. unfold window_count. apply Qlt_bool_iff in H. rewrite H. reflexivity.
Qed.

Lemma window_count_current now last_request count :
  (now - last_request <= 60)%Q -> window_count now last_request count = count.
Proof.
  intros H. unfold window_count. apply Qlt_bool_false_iff in H. rewrite H. reflexivity.
Qed.

(** C4. For a slot with last request time [last_request] and counter [count],
    [should_wait] at time [now] answers true exactly when
    [now - last_request < 0.08] or the counter, first reset to zero when
    [now - last_request > 60], has reached 45; the slot is left with that
    possibly reset counter and nothing else is changed. *)
Theorem should_wait_iff (st : SmartTranslator) (now : Q) (i : nat)
    (last_request : Q) (count : Z) :
  last_request_times st !! i = Some last_request ->
  request_counts st !! i = Some count ->
  exists b st',
    should_wait st now i = (Ret b, st') /\
    (b = true <->
       (now - last_request < 8 # 100)%Q \/
       (45 <= window_count now last_request count)%Z) /\
    st' = set_count i (window_count now last_request count) st.
Proof.
  intros Hl Hc. unfold should_wait. rewrite Hl.
  assert (Hid : forall c, request_counts st !! i = Some c -> set_count i c st = st).
  { intros c H. destruct st as [idx counts lasts]. unfold set_count. simpl in *.
    f_equal. apply insert_id. exact H. }
  destruct (Qlt_bool (now - last_request) min_delay_between_requests) eqn:Edelay.
  - apply Qlt_bool_iff in Edelay. unfold min_delay_between_requests in Edelay.
    assert (Hw : window_count now last_request count = count).
    { apply window_count_current. lra. }
    rewrite Hw. exists true, st. conj.
    + reflexivity.
    + split; [intros _; left; exact Edelay|reflexivity].
    + symmetry. apply Hid. exact Hc.
  - apply Qlt_bool_false_iff in Edelay. unfold min_delay_between_requests in Edelay.
    unfold window_count. destruct (Qlt_bool 60 (now - last_request)) eqn:Ewin.
    + simpl. rewrite lookup_insert_eq. simpl.
      exists false, (set_count i 0 st). conj.
      * reflexivity.
      * split; [discriminate|]. intros [H|H]; [lra|lia].
      * reflexivity.
    + rewrite Hc. rewrite (Hid count Hc).
      unfold max_requests_per_minute.
      destruct (45 <=? count)%Z eqn:Ecount.
      * apply Z.leb_le in Ecount. exists true, st. conj.
        -- reflexivity.
        -- split; [intros _; right; exact Ecount|reflexivity].
        -- reflexivity.
      * apply Z.leb_gt in Ecount. exists false, st. conj.
        -- reflexivity.
        -- split; [discriminate|]. intros [H|H]; [lra|lia].
        -- reflexivity.
Qed.

Lemma should_wait_iff_witness :
  exists b st',
    should_wait SmartTranslator_init (1700000000 # 1) 0 = (Ret b, st') /\
    (b = true <->
       ((1700000000 # 1) - 0 < 8 # 100)%Q \/
       (45 <= window_count (1700000000 # 1) 0 0)%Z) /\
    st' = set_count 0 (window_count (1700000000 # 1) 0 0) SmartTranslator_init.
Proof.
  apply (should_wait_iff SmartTranslator_init (1700000000 # 1) 0 0%Q 0%Z);
    reflexivity.
Defined.

(** ** Rate-limit errors *)








(** ** Serialization *)

Lemma below_forallb (P : nat -> bool) (bound n : nat) :
  forallb P (seq 0 bound) = true -> (n < bound)%nat -> P n = true.
Proof.
  intros Hall Hn. rewrite forallb_forall in Hall.
  apply Hall. apply in_seq. lia.
Qed.

Lemma format_0d_two_digits n : (n < 100)%nat -> format_0d 2 n = two_digits n.
Proof.
  intros Hn. apply String.eqb_eq.
  apply (below_forallb (fun n => String.eqb (format_0d 2 n) (two_digits n)) 100 n);
    [vm_compute; reflexivity|exact Hn].
Qed.

Lemma format_0d_three_digits n : (n < 1000)%nat -> format_0d 3 n = three_digits n.
Proof.
  intros Hn. apply String.eqb_eq.
  apply (below_forallb (fun n => String.eqb (format_0d 3 n) (three_digits n)) 1000 n);
    [vm_compute; reflexivity|exact Hn].
Qed.

(** The rendering of a valid time: two digits for the hours, the minutes and
    the seconds, three for the whole milliseconds of the microseconds. *)
Lemma time_str_valid t :
  valid_time t ->
  time_str t =
    (two_digits (hour t) +:+ ":" +:+ two_digits (minute t) +:+ ":" +:+
     two_digits (second t) +:+ "," +:+ three_digits (microsecond t / 1000))%string.
Proof.
  intros (Hh & Hm & Hs & Hu). unfold time_str.
  rewrite !format_0d_two_digits by lia.
  rewrite format_0d_three_digits; [reflexivity|].
  apply Nat.Div0.div_lt_upper_bound. lia.
Qed.

Lemma append_String (x : ascii) (a b : string) :
  (String x a +:+ b = String x (a +:+ b))%string.
Proof. reflexivity. Qed.

Lemma append_empty_l (a : string) : ("" +:+ a = a)%string.
Proof. reflexivity. Qed.

Lemma append_assoc (a b c : string) : ((a +:+ b) +:+ c = a +:+ (b +:+ c))%string.
Proof.
  induction a as [|x a IH]; [reflexivity|].
  rewrite !append_String, IH. reflexivity.
Qed.

Lemma append_empty_r (a : string) : (a +:+ "" = a)%string.
Proof.
  induction a as [|x a IH]; [reflexivity|].
  rewrite append_String, IH. reflexivity.
Qed.

Lemma unlines_cons l lines : unlines (l :: lines) = (l +:+ newline +:+ unlines lines)%string.
Proof.
  unfold unlines. cbn [map String.concat]. destruct (map _ lines) eqn:E.
  - cbn [String.concat]. rewrite append_empty_r. reflexivity.
  - rewrite append_empty_l, append_assoc. reflexivity.
Qed.

(** Joining with line feeds leaves out the line feed after the last line. *)
Lemma concat_newline_unlines lines :
  lines <> [] -> (String.concat newline lines +:+ newline)%string = unlines lines.
Proof.
  induction lines as [|l lines IH]; [congruence|]. intros _.
  rewrite unlines_cons. destruct lines as [|l' lines].
  - reflexivity.
  - change (String.concat newline (l :: l' :: lines))
      with (l +:+ newline +:+ String.concat newline (l' :: lines))%string.
    rewrite !append_assoc. rewrite IH by discriminate. reflexivity.
Qed.

Section Serialization.

Variable SubRipTime : Type.
Variable to_time : SubRipTime -> outcome time.

(** The lines of [srt_to_string], each followed by a line feed, are the
    serialization of the specification. *)
Lemma srt_lines_serialize subs : forall i,
  match srt_lines SubRipTime to_time i subs with
  | Raise e => serialize SubRipTime to_time i subs = Raise e
  | Ret lines => serialize SubRipTime to_time i subs = Ret (unlines lines) /\ (subs <> [] -> lines <> [])
  end.
Proof.
  induction subs as [|sub rest IH]; intros i.
  - simpl. split; [reflexivity|congruence].
  - cbn [srt_lines serialize].
    destruct (to_time (start _ sub)) as [start_time|e]; [|reflexivity].
    destruct (to_time (end_ _ sub)) as [end_time|e]; [|reflexivity].
    specialize (IH (S i)).
    destruct (srt_lines SubRipTime to_time (S i) rest) as [lines|e].
    + destruct IH as [-> _]. split; [|discriminate].
      rewrite !unlines_cons. reflexivity.
    + rewrite IH. reflexivity.
Qed.

End Serialization.

(** C3, as the code has it. A valid time is rendered with two digits for the
    hours, the minutes and the seconds and three digits for the milliseconds,
    which are the microseconds divided by 1000 and truncated. The output is
    the serialization of the specification (sequence numbers from 1, timing
    line, text verbatim, a blank line after every entry) without its very
    last line feed: a blank line separates consecutive entries, and the text
    of the last entry is followed by one line feed only. An empty document
    gives the empty string, and serialization raises exactly when reading a
    time stamp does. *)
Theorem srt_to_string_format (SubRipTime : Type) (to_time : SubRipTime -> outcome time)
    (subs : list (SubRipItem SubRipTime)) :
  (forall t, valid_time t ->
     time_str t =
       (two_digits (hour t) +:+ ":" +:+ two_digits (minute t) +:+ ":" +:+
        two_digits (second t) +:+ "," +:+ three_digits (microsecond t / 1000))%string) /\
  match serialize SubRipTime to_time 1 subs with
  | Raise e => srt_to_string SubRipTime to_time subs = Raise e
  | Ret s =>
    match subs with
    | [] => srt_to_string SubRipTime to_time subs = Ret EmptyString
    | _ :: _ =>
      exists s', srt_to_string SubRipTime to_time subs = Ret s' /\
                 s = (s' +:+ newline)%string
    end
  end.
Proof.
  split; [exact time_str_valid|].
  destruct subs as [|sub rest]; [reflexivity|].
  pose proof (srt_lines_serialize SubRipTime to_time (sub :: rest) 1) as H.
  unfold srt_to_string.
  destruct (srt_lines SubRipTime to_time 1 (sub :: rest)) as [lines|e].
  - destruct H as [-> Hne].
    eexists. split; [reflexivity|].
    symmetry. apply concat_newline_unlines. apply Hne. discriminate.
  - rewrite H. reflexivity.
Qed.

(** C3 as stated fails on it: the output has no blank line after the last
    entry, so it is not the serialization of the specification. *)
Lemma srt_to_string_last_entry_no_blank_line :
  srt_to_string time Ret one_hello <> serialize time Ret 1 one_hello.
Proof. vm_compute. intros H. discriminate H. Qed.

Section Renumbering.

Variable SubRipTime : Type.
Variable to_time : SubRipTime -> outcome time.

Lemma srt_lines_numbers subs : forall i lines,
  srt_lines SubRipTime to_time i subs = Ret lines ->
  length lines = (4 * length subs)%nat /\
  forall k, (k < length subs)%nat -> lines !! (4 * k)%nat = Some (str_nat (i + k)).
Proof.
  induction subs as [|sub rest IH]; intros i lines H.
  - simpl in H. injection H as <-. split; [reflexivity|]. simpl. lia.
  - cbn [srt_lines] in H.
    destruct (to_time (start _ sub)) as [start_time|e]; [|discriminate].
    destruct (to_time (end_ _ sub)) as [end_time|e]; [|discriminate].
    destruct (srt_lines SubRipTime to_time (S i) rest) as [lines'|e] eqn:E; [|discriminate].
    injection H as <-. destruct (IH (S i) lines' E) as [Hlen Hnum].
    split; [simpl; lia|].
    intros [|k] Hk.
    + simpl. rewrite Nat.add_0_r. reflexivity.
    + replace (4 * S k)%nat with (S (S (S (S (4 * k))))) by lia.
      simpl in Hk. cbn [lookup list_lookup].
      change (lines' !! (4 * k)%nat = Some (str_nat (i + S k))).
      rewrite Hnum by lia. do 2 f_equal. lia.
Qed.

Lemma srt_lines_ignores_index subs' subs :
  same_but_index SubRipTime subs' subs ->
  forall i, srt_lines SubRipTime to_time i subs' = srt_lines SubRipTime to_time i subs.
Proof.
  induction 1 as [|a b subs' subs (Hs & He & Ht) _ IH]; intros i; [reflexivity|].
  cbn [srt_lines]. rewrite Hs, He, Ht, IH. reflexivity.
Qed.

End Renumbering.

(** C7. The lines that [srt_to_string] joins hold, for the entry at position
    [k] (from 0), the number [k + 1] on line [4 * k]; and the [index] fields
    of the entries play no part: documents that differ only there serialize
    to the same result. *)
Theorem srt_to_string_renumbers (SubRipTime : Type) (to_time : SubRipTime -> outcome time)
    (subs : list (SubRipItem SubRipTime)) (lines : list string) :
  srt_lines SubRipTime to_time 1 subs = Ret lines ->
  srt_to_string SubRipTime to_time subs = Ret (String.concat newline lines) /\
  length lines = (4 * length subs)%nat /\
  (forall k, (k < length subs)%nat -> lines !! (4 * k)%nat = Some (str_nat (S k))) /\
  (forall subs', same_but_index SubRipTime subs' subs ->
     srt_to_string SubRipTime to_time subs' = srt_to_string SubRipTime to_time subs).
Proof.
  intros H. conj.
  - unfold srt_to_string. rewrite H. reflexivity.
  - apply (srt_lines_numbers SubRipTime to_time subs 1 lines H).
  - intros k Hk.
    apply (proj2 (srt_lines_numbers SubRipTime to_time subs 1 lines H) k Hk).
  - intros subs' Hsame. unfold srt_to_string.
    rewrite (srt_lines_ignores_index SubRipTime to_time subs' subs Hsame). reflexivity.
Qed.

Lemma srt_to_string_renumbers_witness :
  srt_to_string time Ret numbered_5_9_9 = Ret (String.concat newline lines_5_9_9) /\
  length lines_5_9_9 = (4 * length numbered_5_9_9)%nat /\
  (forall k, (k < length numbered_5_9_9)%nat ->
     lines_5_9_9 !! (4 * k)%nat = Some (str_nat (S k))) /\
  (forall subs', same_but_index time subs' numbered_5_9_9 ->
     srt_to_string time Ret subs' = srt_to_string time Ret numbered_5_9_9).
Proof.
  apply (srt_to_string_renumbers time Ret numbered_5_9_9 lines_5_9_9).
  vm_compute. reflexivity.
Defined.

(** ** The batch translators *)

Section Batches.

Variable port : list string -> string -> PortResult.
Variable random : nat -> Q.
Variable sched : nat -> nat.

(** The worker at position [k] splits the pool: storing at [k] and deleting
    [k] are then plain list operations. *)
Lemma pool_split (pool : list Worker) (k : nat) (wk : Worker) :
  pool !! k = Some wk ->
  exists l1 l2, pool = l1 ++ wk :: l2 /\
    (forall wk', <[k:=wk']> pool = l1 ++ wk' :: l2) /\
    delete k pool = l1 ++ l2.
Proof.
  intros H. exists (take k pool), (drop (S k) pool). conj.
  - symmetry. apply take_drop_middle. exact H.
  - intros wk'. apply insert_take_drop. apply lookup_lt_Some in H. exact H.
  - apply delete_take_drop.
Qed.

(** A property of the pool, the queue, the translator and the world that
    every step of every worker keeps holds when the workers have run. *)
Lemma run_workers_invariant
    (Inv : list Worker -> list (gmap string string) -> SmartTranslator -> World -> Prop) :
  (forall l1 wk l2 queue st w,
     Inv (l1 ++ wk :: l2) queue st w -> todo wk = [] ->
     Inv (l1 ++ l2) (queue ++ [batch_results wk]) st (tick w)) ->
  (forall l1 wk l2 queue st w text rest,
     Inv (l1 ++ wk :: l2) queue st w -> todo wk = text :: rest ->
     match translate_with_smart_retry port random text 3 st (tick w) with
     | (Ret translated, st1, w1) =>
       Inv (l1 ++ mkWorker rest (<[text:=translated]> (batch_results wk)) :: l2)
         queue st1 (sleep (3 # 100) w1)
     | (Raise _, st1, w1) =>
       Inv (l1 ++ mkWorker rest (<[text:=text]> (batch_results wk)) :: l2) queue st1 w1
     end) ->
  forall n pool queue st w,
    Inv pool queue st w ->
    match run_workers port random sched n pool queue st w with
    | (pool', queue', st', w') => Inv pool' queue' st' w'
    end.
Proof.
  intros Hput Htranslate.
  induction n as [|n IH]; intros pool queue st w HInv; [exact HInv|].
  cbn [run_workers].
  destruct (pool !! (sched (ticks w) mod length pool)%nat) as [wk|] eqn:Ek; [|exact HInv].
  destruct (pool_split pool _ wk Ek) as (l1 & l2 & Hpool & Hins & Hdel).
  rewrite Hpool in HInv. unfold worker_step.
  destruct (todo wk) as [|text rest] eqn:Etodo.
  - rewrite Hdel. apply IH. apply Hput; assumption.
  - specialize (Htranslate l1 wk l2 queue st w text rest HInv Etodo).
    destruct (translate_with_smart_retry port random text 3 st (tick w))
      as [[[translated|e] st1] w1]; rewrite Hins; apply IH; exact Htranslate.
Qed.

Lemma pool_steps_app l1 l2 :
  pool_steps (l1 ++ l2) = (pool_steps l1 + pool_steps l2)%nat.
Proof.
  induction l1 as [|wk l1 IH]; [reflexivity|].
  change (pool_steps ((wk :: l1) ++ l2))
    with (S (length (todo wk)) + pool_steps (l1 ++ l2))%nat.
  change (pool_steps (wk :: l1)) with (S (length (todo wk)) + pool_steps l1)%nat.
  rewrite IH. lia.
Qed.

Lemma pool_steps_cons wk pool :
  pool_steps (wk :: pool) = (S (length (todo wk)) + pool_steps pool)%nat.
Proof. reflexivity. Qed.

(** After [pool_steps pool] steps every worker has ended. *)
Lemma run_workers_done n : forall pool queue st w,
  (pool_steps pool <= n)%nat ->
  (run_workers port random sched n pool queue st w).1.1.1 = [].
Proof.
  induction n as [|n IH]; intros pool queue st w Hn.
  - simpl. destruct pool as [|wk pool]; [reflexivity|].
    rewrite pool_steps_cons in Hn. lia.
  - cbn [run_workers].
    destruct (pool !! (sched (ticks w) mod length pool)%nat) as [wk|] eqn:Ek.
    + destruct (pool_split pool _ wk Ek) as (l1 & l2 & Hpool & Hins & Hdel).
      assert (Hsteps : pool_steps pool
                = (pool_steps l1 + S (length (todo wk)) + pool_steps l2)%nat).
      { rewrite Hpool, pool_steps_app, pool_steps_cons. lia. }
      unfold worker_step. destruct (todo wk) as [|text rest] eqn:Etodo.
      * apply IH. rewrite Hdel, pool_steps_app. simpl in Hsteps. lia.
      * assert (Hstep : forall br,
                  (pool_steps (l1 ++ mkWorker rest br :: l2) <= n)%nat).
        { intros br. rewrite pool_steps_app, pool_steps_cons.
          simpl in Hsteps |- *. lia. }
        destruct (translate_with_smart_retry port random text 3 st (tick w))
          as [[[translated|e] st1] w1]; rewrite Hins; apply IH; apply Hstep.
    + destruct pool as [|wk pool]; [reflexivity|].
      apply lookup_ge_None in Ek. exfalso.
      pose proof (Nat.mod_upper_bound (sched (ticks w)) (length (wk :: pool))) as Hlt.
      simpl in Hlt, Ek. lia.
Qed.

(** *** The keys of the result *)

Lemma translate_batch_sequential_loop_dom texts : forall results st w,
  dom (translate_batch_sequential_loop port random texts results st w).1.1
    = list_to_set texts ∪ dom results.
Proof.
  induction texts as [|text rest IH]; intros results st w.
  - simpl. set_solver.
  - cbn [translate_batch_sequential_loop].
    destruct (translate_with_smart_retry port random text 3 st w)
      as [[[translated|e] st1] w1];
      rewrite IH, dom_insert_L; set_solver.
Qed.

Lemma translate_batch_sequential_dom texts st w :
  dom (translate_batch_sequential port random texts st w).1.1 = list_to_set texts.
Proof.
  unfold translate_batch_sequential.
  rewrite translate_batch_sequential_loop_dom, dom_empty_L. set_solver.
Qed.

Lemma pool_keys_app l1 l2 : pool_keys (l1 ++ l2) = pool_keys l1 ∪ pool_keys l2.
Proof.
  unfold pool_keys. rewrite map_app. apply leibniz_equiv. apply union_list_app.
Qed.

Lemma pool_keys_cons wk pool :
  pool_keys (wk :: pool) = dom (batch_results wk) ∪ list_to_set (todo wk) ∪ pool_keys pool.
Proof. reflexivity. Qed.

Lemma queue_keys_app q1 q2 : queue_keys (q1 ++ q2) = queue_keys q1 ∪ queue_keys q2.
Proof.
  unfold queue_keys. rewrite map_app. apply leibniz_equiv. apply union_list_app.
Qed.

Lemma run_workers_keys n pool queue st w :
  match run_workers port random sched n pool queue st w with
  | (pool', queue', _, _) =>
    queue_keys queue' ∪ pool_keys pool' = queue_keys queue ∪ pool_keys pool
  end.
Proof.
  apply (run_workers_invariant
           (fun pool' queue' _ _ =>
              queue_keys queue' ∪ pool_keys pool' = queue_keys queue ∪ pool_keys pool)).
  - intros l1 wk l2 queue0 _ _ HInv Htodo. rewrite <- HInv.
    rewrite queue_keys_app, !pool_keys_app, pool_keys_cons, Htodo.
    unfold queue_keys at 2. simpl. set_solver.
  - intros l1 wk l2 queue0 st0 w0 text rest HInv Htodo.
    destruct (translate_with_smart_retry port random text 3 st0 (tick w0))
      as [[[translated|e] st1] w1];
      rewrite <- HInv, !pool_keys_app, !pool_keys_cons, Htodo; simpl;
      rewrite dom_insert_L; set_solver.
  - reflexivity.
Qed.

Lemma drain_dom queue : forall results,
  dom (drain queue results) = queue_keys queue ∪ dom results.
Proof.
  unfold drain. induction queue as [|q queue IH]; intros results.
  - unfold queue_keys. simpl. set_solver.
  - simpl. rewrite IH, dom_union_L. unfold queue_keys. simpl. set_solver.
Qed.

(** The batches are the list cut in pieces. *)
Lemma concat_slices {A : Type} (size : nat) (m : nat) : forall (l : list A),
  (length l <= m * size)%nat ->
  concat (map (fun k => slice l (k * size) size) (seq 0 m)) = l.
Proof.
  induction m as [|m IH]; intros l Hlen.
  - simpl in *. destruct l; [reflexivity|simpl in Hlen; lia].
  - rewrite <- cons_seq, <- fmap_S_seq. cbn [map concat].
    unfold slice at 1. change (0 * size)%nat with 0%nat. rewrite drop_0.
    transitivity (take size l ++ drop size l); [|apply take_drop]. f_equal.
    etransitivity; [|apply (IH (drop size l)); rewrite length_drop; lia].
    f_equal. change (S <$> seq 0 m) with (map S (seq 0 m)).
    rewrite map_map. apply map_ext. intros k. unfold slice.
    rewrite drop_drop. reflexivity.
Qed.

Lemma concat_batches (batch_size : nat) (texts : list string) :
  (0 < batch_size)%nat -> concat (batches batch_size texts) = texts.
Proof.
  intros Hpos. unfold batches, range_step. rewrite map_map.
  apply concat_slices.
  pose proof (Nat.div_mod_eq (length texts + batch_size - 1) batch_size) as Hdm.
  pose proof (Nat.mod_upper_bound (length texts + batch_size - 1) batch_size) as Hlt.
  nia.
Qed.

Lemma pool_keys_new (bs : list (list string)) :
  pool_keys (map (fun batch => mkWorker batch ∅) bs) = list_to_set (concat bs).
Proof.
  induction bs as [|b bs IH]; [reflexivity|].
  cbn [map]. rewrite pool_keys_cons, IH. simpl.
  rewrite list_to_set_app_L, dom_empty_L. set_solver.
Qed.

Lemma translate_batch_threaded_safe_dom texts st w :
  dom (translate_batch_threaded_safe port random sched texts st w).1.1
    = list_to_set texts.
Proof.
  unfold translate_batch_threaded_safe.
  set (pool := map (fun batch => mkWorker batch ∅) (batches 5 texts)).
  pose proof (run_workers_keys (pool_steps pool) pool [] st w) as Hkeys.
  pose proof (run_workers_done (pool_steps pool) pool [] st w (Nat.le_refl _)) as Hdone.
  destruct (run_workers port random sched (pool_steps pool) pool [] st w)
    as [[[pool' queue'] st'] w'].
  simpl in Hdone. subst pool'. simpl.
  rewrite drain_dom, dom_empty_L.
  unfold pool_keys at 1 in Hkeys. unfold queue_keys at 2 in Hkeys. simpl in Hkeys.
  subst pool. rewrite pool_keys_new, concat_batches in Hkeys by lia.
  set_solver.
Qed.

(** *** The values of the result *)

Lemma entries_satisfy_insert P t v m :
  P t v -> entries_satisfy P m -> entries_satisfy P (<[t:=v]> m).
Proof.
  intros Hv H t' v'. destruct (decide (t = t')) as [->|Hne].
  - rewrite lookup_insert_eq. intros [= <-]. exact Hv.
  - rewrite lookup_insert_ne by exact Hne. apply H.
Qed.

Lemma entries_satisfy_union P m1 m2 :
  entries_satisfy P m1 -> entries_satisfy P m2 -> entries_satisfy P (m1 ∪ m2).
Proof.
  intros H1 H2 t v Hv. apply lookup_union_Some_raw in Hv.
  destruct Hv as [Hv|[_ Hv]]; [exact (H1 t v Hv)|exact (H2 t v Hv)].
Qed.

Lemma entries_satisfy_empty P : entries_satisfy P ∅.
Proof. intros t v. rewrite lookup_empty. discriminate. Qed.

Lemma drain_values P queue : forall results,
  entries_satisfy P results -> Forall (entries_satisfy P) queue ->
  entries_satisfy P (drain queue results).
Proof.
  unfold drain. induction queue as [|q queue IH]; intros results Hres Hq; [exact Hres|].
  apply Forall_cons in Hq. destruct Hq as [Hq1 Hq2].
  simpl. apply IH; [|exact Hq2]. apply entries_satisfy_union; assumption.
Qed.

Section Values.

(** A property [P text value] that every retried translation establishes,
    given a property [Inv] of the translator that it keeps. *)
Variable P : string -> string -> Prop.
Variable Inv : SmartTranslator -> Prop.
Hypothesis translation_satisfies : forall text st w,
  Inv st ->
  match translate_with_smart_retry port random text 3 st w with
  | (Ret translated, st', _) => Inv st' /\ P text translated
  | (Raise _, st', _) => Inv st' /\ P text text
  end.

Lemma translate_batch_sequential_loop_values texts : forall results st w,
  Inv st -> entries_satisfy P results ->
  entries_satisfy P (translate_batch_sequential_loop port random texts results st w).1.1.
Proof.
  induction texts as [|text rest IH]; intros results st w HInv Hres; [exact Hres|].
  cbn [translate_batch_sequential_loop].
  pose proof (translation_satisfies text st w HInv) as H.
  destruct (translate_with_smart_retry port random text 3 st w)
    as [[[translated|e] st1] w1]; destruct H as [HInv1 HP];
    (apply IH; [exact HInv1|apply entries_satisfy_insert; assumption]).
Qed.

Lemma run_workers_values n pool queue st w :
  Inv st -> Forall (entries_satisfy P) queue ->
  Forall (fun wk => entries_satisfy P (batch_results wk)) pool ->
  Forall (entries_satisfy P) (run_workers port random sched n pool queue st w).1.1.2.
Proof.
  intros HInv Hq Hp.
  pose proof (run_workers_invariant
    (fun pool' queue' st' _ =>
       Inv st' /\ Forall (entries_satisfy P) queue' /\
       Forall (fun wk => entries_satisfy P (batch_results wk)) pool')) as H.
  specialize (H
    ltac:(intros l1 wk l2 queue0 st0 w0 (HInv0 & Hq0 & Hp0) Htodo;
          apply Forall_app in Hp0; destruct Hp0 as [Hl1 Hl2];
          apply Forall_cons in Hl2; destruct Hl2 as [Hwk Hl2]; conj;
          [exact HInv0
          |apply Forall_app; split;
             [exact Hq0|apply Forall_cons; split; [exact Hwk|constructor]]
          |apply Forall_app; split; assumption])).
  specialize (H
    ltac:(intros l1 wk l2 queue0 st0 w0 text rest (HInv0 & Hq0 & Hp0) Htodo;
          apply Forall_app in Hp0; destruct Hp0 as [Hl1 Hl2];
          apply Forall_cons in Hl2; destruct Hl2 as [Hwk Hl2];
          pose proof (translation_satisfies text st0 (tick w0) HInv0) as Hstep;
          destruct (translate_with_smart_retry port random text 3 st0 (tick w0))
            as [[[translated|e] st1] w1]; destruct Hstep as [HInv1 HP]; conj;
          [exact HInv1|exact Hq0
          |apply Forall_app; split; [exact Hl1|];
           apply Forall_cons; split; [|exact Hl2];
           apply entries_satisfy_insert; assumption
          |exact HInv1|exact Hq0
          |apply Forall_app; split; [exact Hl1|];
           apply Forall_cons; split; [|exact Hl2];
           apply entries_satisfy_insert; assumption])).
  specialize (H n pool queue st w (conj HInv (conj Hq Hp))).
  destruct (run_workers port random sched n pool queue st w) as [[[pool' queue'] st'] w'].
  simpl. apply H.
Qed.

Lemma translate_batch_threaded_safe_values texts st w :
  Inv st ->
  entries_satisfy P (translate_batch_threaded_safe port random sched texts st w).1.1.
Proof.
  intros HInv. unfold translate_batch_threaded_safe.
  set (pool := map (fun batch => mkWorker batch ∅) (batches 5 texts)).
  assert (Hp : Forall (fun wk => entries_satisfy P (batch_results wk)) pool).
  { subst pool. apply Forall_map. apply Forall_true. intros batch.
    apply entries_satisfy_empty. }
  pose proof (run_workers_values (pool_steps pool) pool [] st w HInv
                ltac:(constructor) Hp) as H.
  destruct (run_workers port random sched (pool_steps pool) pool [] st w)
    as [[[pool' queue'] st'] w'].
  simpl in *. apply drain_values; [apply entries_satisfy_empty|exact H].
Qed.

End Values.

(** A string that the retry loop returns is the text or a translation that
    the port gave for it, whatever state the translator is in. *)
Lemma retry_loop_translation_or_text remaining :
  forall attempt max_retries text st w r st' w',
    retry_loop port random remaining attempt max_retries text st w = (Ret r, st', w') ->
    translation_or_text port text r.
Proof.
  induction remaining as [|remaining IH];
    intros attempt max_retries text st w r st' w' H.
  - simpl in H. injection H as <- _ _. left. reflexivity.
  - cbn [retry_loop] in H.
    destruct (get_next_translator st) as [i0 st0].
    destruct (acquire st0 w i0) as [[[j|e] st1] w1]; [|discriminate].
    unfold translate in H.
    destruct (port (calls w1) text) as [translated|e] eqn:E;
      [destruct (request_counts st1 !! j);
         [injection H as <- _ _; right; exists (calls w1); exact E|]|];
      repeat match type of H with
             | context [if ?c then _ else _] => destruct c
             end;
      first [exact (IH _ _ _ _ _ _ _ _ H)
            |injection H as <- _ _; left; reflexivity].
Qed.

Lemma translate_with_smart_retry_translation_or_text text st w :
  True ->
  match translate_with_smart_retry port random text 3 st w with
  | (Ret translated, st', _) => True /\ translation_or_text port text translated
  | (Raise _, st', _) => True /\ translation_or_text port text text
  end.
Proof.
  intros _.
  destruct (translate_with_smart_retry port random text 3 st w)
    as [[[translated|e] st1] w1] eqn:E; split; try exact I.
  - exact (retry_loop_translation_or_text _ _ _ _ _ _ _ _ _ E).
  - left. reflexivity.
Qed.

(** C10. Both batch translators return a dictionary whose keys are exactly
    the texts of the input list, whatever the port answers, whatever state
    the translator is in and however the threads interleave. Every key is
    mapped to a string that is a translation the port gave for it or the key
    itself; and a text whose translation raises is mapped to itself (shown
    for a list of that one text, in the state in which the call is made). *)
Theorem batch_results_total (texts : list string) (st : SmartTranslator) (w : World) :
  dom (translate_batch_sequential port random texts st w).1.1 = list_to_set texts /\
  dom (translate_batch_threaded_safe port random sched texts st w).1.1
    = list_to_set texts /\
  entries_satisfy (translation_or_text port)
    (translate_batch_sequential port random texts st w).1.1 /\
  entries_satisfy (translation_or_text port)
    (translate_batch_threaded_safe port random sched texts st w).1.1 /\
  (forall text e st1 w1,
     translate_with_smart_retry port random text 3 st w = (Raise e, st1, w1) ->
     (translate_batch_sequential port random [text] st w).1.1 = {[text := text]}) /\
  (forall text e st1 w1,
     translate_with_smart_retry port random text 3 st (tick w) = (Raise e, st1, w1) ->
     (translate_batch_threaded_safe port random sched [text] st w).1.1
       = {[text := text]}).
Proof.
  conj.
  - apply translate_batch_sequential_dom.
  - apply translate_batch_threaded_safe_dom.
  - apply (translate_batch_sequential_loop_values (translation_or_text port)
             (fun _ => True) translate_with_smart_retry_translation_or_text);
      [exact I|apply entries_satisfy_empty].
  - apply (translate_batch_threaded_safe_values (translation_or_text port)
             (fun _ => True) translate_with_smart_retry_translation_or_text).
    exact I.
  - intros text e st1 w1 H. unfold translate_batch_sequential.
    cbn [translate_batch_sequential_loop]. rewrite H. reflexivity.
  - intros text e st1 w1 H. unfold translate_batch_threaded_safe.
    change (batches 5 [text]) with [[text]]. cbn [map pool_steps foldr todo length Nat.add].
    cbn [run_workers length]. rewrite Nat.mod_1_r. cbn [lookup list_lookup].
    unfold worker_step at 1. cbn [todo]. rewrite H.
    cbn [run_workers length insert list_insert]. rewrite Nat.mod_1_r.
    cbn [lookup list_lookup]. unfold worker_step. cbn [todo batch_results].
    cbn [run_workers delete list_delete option_list app drain foldl].
    simpl. rewrite map_union_empty. apply insert_empty.
Qed.

End Batches.

(** The translation of a text does raise when the translator has lost its
    slots (a state that [__init__] never builds). *)
Example translate_with_smart_retry_raises :
  (translate_with_smart_retry port_vi random_half "Hello" 3
     (mkSmartTranslator 0 ∅ ∅) world0).1.1 = Raise "1".
Proof. vm_compute. reflexivity. Qed.

(** ** The two batch translators agree *)

Section Determinism.

Variable port : list string -> string -> PortResult.
Variable random : nat -> Q.
Variable sched : nat -> nat.

(** A deterministic port: its answer depends on the text alone. *)
Hypothesis port_deterministic : forall h1 h2 text, port h1 text = port h2 text.

Lemma attempts_deterministic n : forall text log,
  (attempts port (S n) text log).1 = port_translation port text.
Proof.
  induction n as [|n IH]; intros text log.
  - cbn [attempts]. unfold port_translation.
    rewrite (port_deterministic log [] text).
    destruct (port [] text); reflexivity.
  - change (attempts port (S (S n)) text log)
      with (match port log text with
            | Translated translated => (translated, text :: log)
            | Failed _ => attempts port (S n) text (text :: log)
            end).
    rewrite (port_deterministic log [] text).
    destruct (port [] text) as [translated|e] eqn:E.
    + unfold port_translation. rewrite E. reflexivity.
    + apply IH.
Qed.

Lemma translate_with_smart_retry_translated text st w :
  wf st ->
  match translate_with_smart_retry port random text 3 st w with
  | (Ret translated, st', _) => wf st' /\ translated = port_translation port text
  | (Raise _, st', _) => wf st' /\ text = port_translation port text
  end.
Proof.
  intros Hwf.
  destruct (translate_with_smart_retry_wf port random text 3 st w Hwf)
    as (st' & w' & -> & Hwf' & _).
  split; [exact Hwf'|apply attempts_deterministic].
Qed.

(** Two dictionaries with the same keys and values determined by the keys. *)
Lemma translated_by_eq m1 m2 :
  dom m1 = dom m2 -> translated_by port m1 -> translated_by port m2 -> m1 = m2.
Proof.
  intros Hdom H1 H2. apply map_eq. intros t.
  destruct (m1 !! t) as [v1|] eqn:E1, (m2 !! t) as [v2|] eqn:E2.
  - rewrite (H1 t v1 E1), (H2 t v2 E2). reflexivity.
  - exfalso. apply not_elem_of_dom in E2. apply E2. rewrite <- Hdom.
    apply elem_of_dom. eauto.
  - exfalso. apply not_elem_of_dom in E1. apply E1. rewrite Hdom.
    apply elem_of_dom. eauto.
  - reflexivity.
Qed.

(** C5. With a port whose answer depends on the text alone, and a translator
    with its four slots, the sequential and the threaded batch translator
    return the same dictionary for the same list of texts, whatever the
    interleaving of the threads: every text of the list is mapped to the
    port's translation of it, or to itself where the port fails. *)
Theorem batch_modes_agree (texts : list string) (st : SmartTranslator) (w : World) :
  wf st ->
  (translate_batch_sequential port random texts st w).1.1
    = (translate_batch_threaded_safe port random sched texts st w).1.1 /\
  forall t, (translate_batch_sequential port random texts st w).1.1 !! t
            = if decide (t ∈ texts) then Some (port_translation port t) else None.
Proof.
  intros Hwf.
  pose proof (translate_batch_sequential_dom port random texts st w) as Hd1.
  pose proof (translate_batch_threaded_safe_dom port random sched texts st w) as Hd2.
  assert (Hv1 : translated_by port (translate_batch_sequential port random texts st w).1.1).
  { apply (translate_batch_sequential_loop_values port random
             (fun t v => v = port_translation port t) wf
             translate_with_smart_retry_translated);
      [exact Hwf|apply entries_satisfy_empty]. }
  split.
  - apply translated_by_eq; [congruence|exact Hv1|].
    apply (translate_batch_threaded_safe_values port random sched
             (fun t v => v = port_translation port t) wf
             translate_with_smart_retry_translated).
    exact Hwf.
  - intros t. destruct (decide (t ∈ texts)) as [Hin|Hnin].
    + assert (Ht : t ∈ dom (translate_batch_sequential port random texts st w).1.1)
        by (rewrite Hd1; set_solver).
      apply elem_of_dom in Ht. destruct Ht as [v Hv].
      rewrite Hv. f_equal. exact (Hv1 t v Hv).
    + apply not_elem_of_dom. rewrite Hd1. set_solver.
Qed.

End Determinism.

Lemma batch_modes_agree_witness :
  (translate_batch_sequential port_vi random_half seven_texts SmartTranslator_init world0).1.1
    = (translate_batch_threaded_safe port_vi random_half round_robin seven_texts
         SmartTranslator_init world0).1.1 /\
  forall t,
    (translate_batch_sequential port_vi random_half seven_texts
       SmartTranslator_init world0).1.1 !! t
    = if decide (t ∈ seven_texts) then Some (port_translation port_vi t) else None.
Proof.
  apply (batch_modes_agree port_vi random_half round_robin
           (fun _ _ _ => eq_refl) seven_texts SmartTranslator_init world0).
  intros i Hi. unfold n_translators in Hi.
  destruct i as [|[|[|[|i]]]]; try lia; split; eexists; reflexivity.
Defined.

(** ** Translating a document touches the texts only *)

Section Frame.

Variable port : list string -> string -> PortResult.
Variable random : nat -> Q.
Variable sched : nat -> nat.
Variable SubRipTime : Type.
Variable to_time : SubRipTime -> outcome time.
Variable from_string : string -> outcome (list (SubRipItem SubRipTime)).

Lemma apply_translation_frame m (sub : SubRipItem SubRipTime) :
  index _ (apply_translation SubRipTime m sub) = index _ sub /\
  start _ (apply_translation SubRipTime m sub) = start _ sub /\
  end_ _ (apply_translation SubRipTime m sub) = end_ _ sub /\
  (truthy (strip (text _ sub)) = false ->
   apply_translation SubRipTime m sub = sub).
Proof.
  unfold apply_translation.
  destruct (truthy (strip (text _ sub))); [|conj; reflexivity].
  destruct (m !! text _ sub); conj; try reflexivity; discriminate.
Qed.

(** What [translate_subs] returns is the document mapped entry by entry. *)
Lemma translate_subs_map subs w :
  exists m, (translate_subs port random sched SubRipTime subs w).1
            = map (apply_translation SubRipTime m) subs.
Proof.
  unfold translate_subs.
  destruct (texts_to_translate SubRipTime subs) as [|t ts] eqn:E.
  - exists ∅. simpl. induction subs as [|sub subs IH]; [reflexivity|].
    simpl. rewrite <- IH.
    + f_equal. unfold apply_translation.
      destruct (truthy (strip (text _ sub))); [|reflexivity].
      rewrite lookup_empty. reflexivity.
    + unfold texts_to_translate in E |- *. rewrite filter_cons in E.
      destruct (decide (truthy (strip (text _ sub)) = true)); [discriminate|exact E].
  - destruct (translate_batches port random sched (batches 25 (t :: ts)) ∅
                SmartTranslator_init w) as [[m st1] w1].
    exists m. reflexivity.
Qed.

(** C9. The document that [translate_single_file_ultra_fast] serializes has
    as many entries as the parsed one, with the same indices and the same
    start and end time stamps in the same order, and an entry whose text is
    empty or white space only is the entry it was; the result of the
    function is the serialization of that document, with the number of
    parsed entries as its subtitle count. *)
Theorem translate_subs_frame (subs : list (SubRipItem SubRipTime)) (w : World) :
  let subs' := (translate_subs port random sched SubRipTime subs w).1 in
  length subs' = length subs /\
  map (index _) subs' = map (index _) subs /\
  map (start _) subs' = map (start _) subs /\
  map (end_ _) subs' = map (end_ _) subs /\
  (forall k sub, subs !! k = Some sub ->
     truthy (strip (text _ sub)) = false -> subs' !! k = Some sub) /\
  (forall file_content filename,
     from_string file_content = Ret subs ->
     (translate_single_file_ultra_fast port random sched SubRipTime to_time from_string
        file_content filename w).1
     = match srt_to_string SubRipTime to_time subs' with
       | Ret result => Success filename result (length subs)
       | Raise e => Error filename e
       end).
Proof.
  intros subs'. destruct (translate_subs_map subs w) as [m Hm].
  assert (Hsubs' : subs' = map (apply_translation SubRipTime m) subs) by exact Hm.
  conj.
  - rewrite Hsubs'. apply length_map.
  - rewrite Hsubs', map_map. apply map_ext. intros sub.
    apply (apply_translation_frame m sub).
  - rewrite Hsubs', map_map. apply map_ext. intros sub.
    apply (apply_translation_frame m sub).
  - rewrite Hsubs', map_map. apply map_ext. intros sub.
    apply (apply_translation_frame m sub).
  - intros k sub Hk Hblank. rewrite Hsubs'.
    change (map ?f ?l) with (f <$> l). rewrite list_lookup_fmap, Hk. simpl.
    f_equal. apply (apply_translation_frame m sub). exact Hblank.
  - intros file_content filename Hparse. unfold translate_single_file_ultra_fast.
    rewrite Hparse. subst subs'.
    destruct (translate_subs port random sched SubRipTime subs w) as [subs1 w1].
    simpl. destruct (srt_to_string SubRipTime to_time subs1); reflexivity.
Qed.

End Frame.

(** ** Translating several files *)

Section Collection.

Variable port : list string -> string -> PortResult.
Variable random : nat -> Q.
Variable sched : nat -> nat.
Variable SubRipTime : Type.
Variable to_time : SubRipTime -> outcome time.
Variable from_string : string -> outcome (list (SubRipItem SubRipTime)).

Abbreviation translate_file :=
  (translate_single_file_ultra_fast port random sched SubRipTime to_time from_string).
Abbreviation translate_files :=
  (translate_multiple_files_sequential port random sched SubRipTime to_time from_string).

(** The result for one file, whatever world it is translated in. *)
Lemma translate_single_file_ultra_fast_result file_content filename w :
  result_filename (translate_file file_content filename w).1 = filename /\
  match from_string file_content with
  | Raise e => (translate_file file_content filename w).1 = Error filename e
  | Ret subs =>
    (translate_file file_content filename w).1
    = match srt_to_string SubRipTime to_time
              (translate_subs port random sched SubRipTime subs w).1 with
      | Ret result => Success filename result (length subs)
      | Raise e => Error filename e
      end
  end.
Proof.
  unfold translate_single_file_ultra_fast.
  destruct (from_string file_content) as [subs|e]; [|split; reflexivity].
  destruct (translate_subs port random sched SubRipTime subs w) as [subs1 w1].
  simpl. destruct (srt_to_string SubRipTime to_time subs1); split; reflexivity.
Qed.

(** Every input file has its result at its own position, computed from that
    file alone in the world the earlier files have left. *)
Lemma translate_multiple_files_sequential_lookup files : forall w i file,
  files !! i = Some file ->
  exists w_i,
    (translate_files files w).1 !! i
    = Some (translate_file (content file) (name file) w_i).1.
Proof.
  induction files as [|f files IH]; intros w i file Hi; [discriminate|].
  cbn [translate_multiple_files_sequential].
  destruct (translate_file (content f) (name f) w) as [result w1] eqn:E1.
  destruct (translate_files files (sleep (2 # 10) w1)) as [results w2] eqn:E2.
  destruct i as [|i].
  - injection Hi as <-. exists w. rewrite E1. reflexivity.
  - destruct (IH (sleep (2 # 10) w1) i file Hi) as [w_i Hw_i].
    exists w_i. rewrite E2 in Hw_i. exact Hw_i.
Qed.

Lemma translate_multiple_files_sequential_length files : forall w,
  length (translate_files files w).1 = length files.
Proof.
  induction files as [|f files IH]; intros w; [reflexivity|].
  cbn [translate_multiple_files_sequential].
  destruct (translate_file (content f) (name f) w) as [result w1].
  specialize (IH (sleep (2 # 10) w1)).
  destruct (translate_files files (sleep (2 # 10) w1)) as [results w2].
  simpl in *. rewrite IH. reflexivity.
Qed.

(** C6. [translate_multiple_files_sequential] returns, for every list of
    files, a list with one result per file, the result of the file at
    position [i] at position [i] and carrying its name. A file whose parsing
    raises [e] gets the error result with message [e]; a file that parses
    gets the error result with message [e] when serializing its translated
    subtitles raises [e], and the success result with the serialization and
    the number of parsed entries otherwise. No outcome for one file changes
    how many results there are or where they stand. *)
Theorem translate_multiple_files_sequential_total (files : list FileInfo) (w : World) :
  let results := (translate_files files w).1 in
  length results = length files /\
  forall i file, files !! i = Some file ->
    exists r, results !! i = Some r /\
      result_filename r = name file /\
      match from_string (content file) with
      | Raise e => r = Error (name file) e
      | Ret subs =>
        exists w_i,
          r = match srt_to_string SubRipTime to_time
                      (translate_subs port random sched SubRipTime subs w_i).1 with
              | Ret result => Success (name file) result (length subs)
              | Raise e => Error (name file) e
              end
      end.
Proof.
  intros results. split; [apply translate_multiple_files_sequential_length|].
  intros i file Hi.
  destruct (translate_multiple_files_sequential_lookup files w i file Hi) as [w_i Hw_i].
  eexists. split; [exact Hw_i|].
  pose proof (translate_single_file_ultra_fast_result (content file) (name file) w_i)
    as [Hname Hres].
  split; [exact Hname|].
  destruct (from_string (content file)) as [subs|e]; [|exact Hres].
  exists w_i. exact Hres.
Qed.

End Collection.

(** ** Remote calls per text *)

Lemma count_occ_repeat_app (text t : string) (k : nat) (log : list string) :
  count_occ string_dec (repeat text k ++ log) t
  = ((if string_dec text t then k else 0) + count_occ string_dec log t)%nat.
Proof.
  rewrite count_occ_app. f_equal.
  destruct (string_dec text t) as [->|Hne].
  - apply count_occ_repeat_eq. reflexivity.
  - apply count_occ_repeat_neq. congruence.
Qed.

Section CallCounts.

Variable port : list string -> string -> PortResult.
Variable random : nat -> Q.
Variable sched : nat -> nat.

(** The remote calls of one retried translation are between [lo] and [hi]. *)
Variables lo hi : nat.
Hypothesis attempts_between : forall text log,
  exists k, (lo <= k <= hi)%nat /\ (attempts port 3 text log).2 = repeat text k ++ log.

Lemma translate_with_smart_retry_calls t text st w :
  wf st ->
  exists r st' w',
    translate_with_smart_retry port random text 3 st w = (Ret r, st', w') /\
    wf st' /\
    calls_within lo hi t (if string_dec text t then 1 else 0) w w'.
Proof.
  intros Hwf.
  destruct (translate_with_smart_retry_wf port random text 3 st w Hwf)
    as (st' & w' & Heq & Hwf' & Hcalls & _).
  destruct (attempts_between text (calls w)) as (k & Hk & Hlog).
  eexists _, st', w'. conj; [exact Heq|exact Hwf'|].
  unfold calls_within, ncalls. rewrite Hcalls, Hlog, count_occ_repeat_app.
  destruct (string_dec text t); lia.
Qed.

Lemma calls_within_trans t n1 n2 w1 w2 w3 :
  calls_within lo hi t n1 w1 w2 -> calls_within lo hi t n2 w2 w3 ->
  calls_within lo hi t (n1 + n2) w1 w3.
Proof. unfold calls_within. nia. Qed.

Lemma calls_within_same t w w' : calls w' = calls w -> calls_within lo hi t 0 w w'.
Proof. unfold calls_within, ncalls. intros ->. lia. Qed.

Lemma translate_batch_sequential_loop_calls t texts : forall results st w,
  wf st ->
  match translate_batch_sequential_loop port random texts results st w with
  | (_, st', w') => wf st' /\ calls_within lo hi t (count_occ string_dec texts t) w w'
  end.
Proof.
  induction texts as [|text rest IH]; intros results st w Hwf.
  - simpl. split; [exact Hwf|]. apply calls_within_same. reflexivity.
  - cbn [translate_batch_sequential_loop count_occ].
    destruct (translate_with_smart_retry_calls t text st w Hwf)
      as (r & st1 & w1 & -> & Hwf1 & Hc1).
    specialize (IH (<[text:=r]> results) st1 (sleep (5 # 100) w1) Hwf1).
    destruct (translate_batch_sequential_loop port random rest (<[text:=r]> results)
                st1 (sleep (5 # 100) w1)) as [[results' st'] w'].
    destruct IH as [Hwf' Hc']. split; [exact Hwf'|].
    assert (Hc2 : calls_within lo hi t (count_occ string_dec rest t) w1 w') by exact Hc'.
    pose proof (calls_within_trans t _ _ w w1 w' Hc1 Hc2) as H.
    destruct (string_dec text t); exact H.
Qed.

Lemma pool_todo_app t l1 l2 :
  pool_todo t (l1 ++ l2) = (pool_todo t l1 + pool_todo t l2)%nat.
Proof. unfold pool_todo. rewrite map_app, concat_app, count_occ_app. reflexivity. Qed.

Lemma pool_todo_cons t wk pool :
  pool_todo t (wk :: pool) = (count_occ string_dec (todo wk) t + pool_todo t pool)%nat.
Proof. unfold pool_todo. simpl. rewrite count_occ_app. reflexivity. Qed.

Lemma run_workers_calls t n pool queue st w :
  wf st ->
  match run_workers port random sched n pool queue st w with
  | (pool', _, st', w') =>
    wf st' /\
    (ncalls t w + lo * pool_todo t pool <= ncalls t w' + lo * pool_todo t pool')%nat /\
    (ncalls t w' + hi * pool_todo t pool' <= ncalls t w + hi * pool_todo t pool)%nat
  end.
Proof.
  intros Hwf.
  apply (run_workers_invariant port random sched
    (fun pool' _ st' w' =>
       wf st' /\
       (ncalls t w + lo * pool_todo t pool <= ncalls t w' + lo * pool_todo t pool')%nat /\
       (ncalls t w' + hi * pool_todo t pool' <= ncalls t w + hi * pool_todo t pool)%nat)).
  - intros l1 wk l2 queue0 st0 w0 (Hwf0 & Hlo & Hhi) Htodo.
    rewrite pool_todo_app, pool_todo_cons, Htodo in Hlo, Hhi. simpl in Hlo, Hhi.
    rewrite pool_todo_app. unfold ncalls in *. simpl. conj; [exact Hwf0|lia|lia].
  - intros l1 wk l2 queue0 st0 w0 text rest (Hwf0 & Hlo & Hhi) Htodo.
    destruct (translate_with_smart_retry_calls t text st0 (tick w0) Hwf0)
      as (r & st1 & w1 & -> & Hwf1 & Hc1).
    rewrite pool_todo_app, pool_todo_cons, Htodo in Hlo, Hhi.
    cbn [count_occ] in Hlo, Hhi.
    rewrite pool_todo_app, pool_todo_cons. cbn [todo].
    unfold calls_within, ncalls in *. simpl in Hc1 |- *.
    conj; [exact Hwf1| |]; destruct (string_dec text t); nia.
  - conj; [exact Hwf|lia|lia].
Qed.

Lemma pool_todo_new t (bs : list (list string)) :
  pool_todo t (map (fun batch => mkWorker batch ∅) bs) = count_occ string_dec (concat bs) t.
Proof. unfold pool_todo. rewrite map_map. simpl. rewrite map_id. reflexivity. Qed.

Lemma translate_batch_threaded_safe_calls t texts st w :
  wf st ->
  match translate_batch_threaded_safe port random sched texts st w with
  | (_, st', w') => wf st' /\ calls_within lo hi t (count_occ string_dec texts t) w w'
  end.
Proof.
  intros Hwf. unfold translate_batch_threaded_safe.
  set (pool := map (fun batch => mkWorker batch ∅) (batches 5 texts)).
  pose proof (run_workers_calls t (pool_steps pool) pool [] st w Hwf) as H.
  pose proof (run_workers_done port random sched (pool_steps pool) pool [] st w
                (Nat.le_refl _)) as Hdone.
  destruct (run_workers port random sched (pool_steps pool) pool [] st w)
    as [[[pool' queue'] st'] w'].
  simpl in Hdone. subst pool'. destruct H as (Hwf' & Hlo & Hhi).
  split; [exact Hwf'|].
  subst pool. rewrite pool_todo_new, concat_batches in Hlo, Hhi by lia.
  unfold pool_todo in Hlo, Hhi. simpl in Hlo, Hhi.
  unfold calls_within. lia.
Qed.

Lemma translate_batches_calls t bs : forall m st w,
  wf st ->
  match translate_batches port random sched bs m st w with
  | (_, st', w') => wf st' /\ calls_within lo hi t (count_occ string_dec (concat bs) t) w w'
  end.
Proof.
  induction bs as [|batch rest IH]; intros m st w Hwf.
  - simpl. split; [exact Hwf|]. apply calls_within_same. reflexivity.
  - cbn [translate_batches concat]. rewrite count_occ_app.
    assert (Hb : match (if (length batch <=? 10)%nat
                        then translate_batch_threaded_safe port random sched batch st w
                        else translate_batch_sequential port random batch st w) with
                 | (_, st', w') =>
                   wf st' /\ calls_within lo hi t (count_occ string_dec batch t) w w'
                 end).
    { destruct (length batch <=? 10)%nat.
      - apply translate_batch_threaded_safe_calls. exact Hwf.
      - apply translate_batch_sequential_loop_calls. exact Hwf. }
    destruct (if (length batch <=? 10)%nat
              then translate_batch_threaded_safe port random sched batch st w
              else translate_batch_sequential port random batch st w)
      as [[batch_results st1] w1].
    destruct Hb as [Hwf1 Hc1].
    specialize (IH (batch_results ∪ m) st1 (sleep (1 # 10) w1) Hwf1).
    destruct (translate_batches port random sched rest (batch_results ∪ m) st1
                (sleep (1 # 10) w1)) as [[m' st'] w'].
    destruct IH as [Hwf' Hc']. split; [exact Hwf'|].
    apply (calls_within_trans t _ _ w w1 w' Hc1). exact Hc'.
Qed.

End CallCounts.

Section Occurrences.

Variable port : list string -> string -> PortResult.
Variable random : nat -> Q.
Variable sched : nat -> nat.
Variable SubRipTime : Type.

(** A retried translation makes at least one and at most three remote calls. *)
Lemma attempts_one_to_three text log :
  exists k, (1 <= k <= 3)%nat /\ (attempts port 3 text log).2 = repeat text k ++ log.
Proof.
  cbn [attempts].
  destruct (port log text); [exists 1%nat; split; [lia|reflexivity]|].
  destruct (port (text :: log) text); [exists 2%nat; split; [lia|reflexivity]|].
  destruct (port (text :: text :: log) text); exists 3%nat; split; try lia; reflexivity.
Qed.

(** With a port that never fails it makes exactly one. *)
Lemma attempts_one text log :
  (forall h x, exists translated, port h x = Translated translated) ->
  exists k, (1 <= k <= 1)%nat /\ (attempts port 3 text log).2 = repeat text k ++ log.
Proof.
  intros Hok. exists 1%nat. split; [lia|]. cbn [attempts].
  destruct (Hok log text) as [translated ->]. reflexivity.
Qed.

Lemma translate_subs_calls lo hi t (subs : list (SubRipItem SubRipTime)) w :
  (forall text log,
     exists k, (lo <= k <= hi)%nat /\ (attempts port 3 text log).2 = repeat text k ++ log) ->
  calls_within lo hi t (count_occ string_dec (texts_to_translate SubRipTime subs) t)
    w (translate_subs port random sched SubRipTime subs w).2.
Proof.
  intros Hbetween. unfold translate_subs.
  destruct (texts_to_translate SubRipTime subs) as [|t0 ts] eqn:E.
  - simpl. unfold calls_within. lia.
  - pose proof (translate_batches_calls port random sched lo hi Hbetween t
                  (batches 25 (t0 :: ts)) ∅ SmartTranslator_init w wf_init) as H.
    destruct (translate_batches port random sched (batches 25 (t0 :: ts)) ∅
                SmartTranslator_init w) as [[m st1] w1].
    rewrite concat_batches in H by lia. simpl. apply H.
Qed.

(** A text that is not blank is collected once for each entry that holds it. *)
Lemma texts_to_translate_count t (subs : list (SubRipItem SubRipTime)) :
  truthy (strip t) = true ->
  count_occ string_dec (texts_to_translate SubRipTime subs) t
  = count_occ string_dec (map (text _) subs) t.
Proof.
  intros Ht. unfold texts_to_translate.
  induction subs as [|sub subs IH]; [reflexivity|].
  rewrite filter_cons. cbn [map count_occ].
  destruct (decide (truthy (strip (text _ sub)) = true)) as [Hs|Hs].
  - cbn [map count_occ]. rewrite IH. reflexivity.
  - rewrite IH. destruct (string_dec (text _ sub) t) as [Heq|]; [|reflexivity].
    exfalso. apply Hs. rewrite Heq. exact Ht.
Qed.

Lemma apply_translation_same_text m (a b : SubRipItem SubRipTime) :
  text _ a = text _ b ->
  text _ (apply_translation SubRipTime m a) = text _ (apply_translation SubRipTime m b).
Proof.
  intros Hab. unfold apply_translation. rewrite Hab.
  destruct (truthy (strip (text _ b))); [|exact Hab].
  destruct (m !! text _ b); [reflexivity|exact Hab].
Qed.

(** C1, as the code has it. The texts are not deduplicated: a text that is
    not blank and is the text of [k] entries is handed to the retrying
    translator once per entry, which makes at least [k] and at most [3 * k]
    remote calls for it, and exactly [k] when the port never fails. Entries
    with the same text do get the same text after the substitution. *)
Theorem each_occurrence_is_translated
    (subs : list (SubRipItem SubRipTime)) (w : World) (t : string) :
  truthy (strip t) = true ->
  let k := count_occ string_dec (map (text _) subs) t in
  let subs' := (translate_subs port random sched SubRipTime subs w).1 in
  let w' := (translate_subs port random sched SubRipTime subs w).2 in
  (ncalls t w + k <= ncalls t w' <= ncalls t w + 3 * k)%nat /\
  ((forall h x, exists translated, port h x = Translated translated) ->
   ncalls t w' = (ncalls t w + k)%nat) /\
  (forall i j a b, subs !! i = Some a -> subs !! j = Some b ->
     text _ a = text _ b ->
     exists a' b', subs' !! i = Some a' /\ subs' !! j = Some b' /\
                   text _ a' = text _ b').
Proof.
  intros Ht k subs' w'. split; [|split].
  - pose proof (translate_subs_calls 1 3 t subs w attempts_one_to_three) as H.
    rewrite (texts_to_translate_count t subs Ht) in H.
    unfold calls_within in H. subst k w'. lia.
  - intros Hok.
    pose proof (translate_subs_calls 1 1 t subs w
                  (fun text log => attempts_one text log Hok)) as H.
    rewrite (texts_to_translate_count t subs Ht) in H.
    unfold calls_within in H. subst k w'. lia.
  - intros i j a b Hi Hj Hab.
    destruct (translate_subs_map port random sched SubRipTime subs w) as [m Hm].
    subst subs'. rewrite Hm.
    exists (apply_translation SubRipTime m a), (apply_translation SubRipTime m b).
    change (map ?f ?l) with (f <$> l). rewrite !list_lookup_fmap, Hi, Hj.
    conj; [reflexivity|reflexivity|].
    apply apply_translation_same_text. exact Hab.
Qed.

End Occurrences.

(** It fails on [three_hello]: "Hello" is requested three times. *)
Lemma three_hello_three_calls :
  ~ one_call_per_distinct_text port_vi random_half round_robin three_hello world0.
Proof.
  intros H. specialize (H "Hello"%string).
  assert (Hin : In "Hello"%string (texts_to_translate time three_hello)).
  { vm_compute. left. reflexivity. }
  specialize (H Hin). vm_compute in H. discriminate H.
Qed.

Lemma each_occurrence_is_translated_witness :
  let k := count_occ string_dec (map (text _) three_hello) "Hello"%string in
  let subs' := (translate_subs port_vi random_half round_robin time three_hello world0).1 in
  let w' := (translate_subs port_vi random_half round_robin time three_hello world0).2 in
  (ncalls "Hello" world0 + k <= ncalls "Hello" w' <= ncalls "Hello" world0 + 3 * k)%nat /\
  ((forall h x, exists translated, port_vi h x = Translated translated) ->
   ncalls "Hello" w' = (ncalls "Hello" world0 + k)%nat) /\
  (forall i j a b, three_hello !! i = Some a -> three_hello !! j = Some b ->
     text _ a = text _ b ->
     exists a' b', subs' !! i = Some a' /\ subs' !! j = Some b' /\
                   text _ a' = text _ b').
Proof.
  apply (each_occurrence_is_translated port_vi random_half round_robin time
           three_hello world0 "Hello"%string).
  reflexivity.
Defined.

(** ** The end-to-end scenario of the specification *)

(** Two blocks that both say "Hello", parsed, translated by [port_vi] and
    serialized: both texts are translated, two remote calls are made, and the
    output ends with the line feed that follows the last text. *)
Example end_to_end :
  let '(result, w) :=
    translate_single_file_ultra_fast port_vi random_half round_robin time Ret
      (fun _ => Ret two_hello) "" "movie.srt" world0 in
  result = Success "movie.srt"
             (String.concat newline
                ["1"; "00:00:01,000 --> 00:00:02,500"; "Xin chao"; "";
                 "2"; "00:00:03,000 --> 00:00:04,000"; "Xin chao"; ""]%string)
             2 /\
  status result = status_success /\
  calls w = ["Hello"; "Hello"]%string.
Proof. vm_compute. conj; reflexivity. Qed.

(** The milliseconds are the microseconds truncated, not rounded. *)
Example milliseconds_are_truncated :
  time_str (mkTime 1 2 3 (999 * 1000 + 999)) = "01:02:03,999"%string.
Proof. vm_compute. reflexivity. Qed.

(** A file that does not parse among two that do: three results, in order. *)
Example collection_with_a_malformed_file :
  let parse (file_content : string) : outcome (list (SubRipItem time)) :=
    if String.eqb file_content "malformed" then Raise "missing timing line"
    else Ret two_hello in
  map status
    (translate_multiple_files_sequential port_vi random_half round_robin time Ret parse
       [mkFileInfo "a.srt" "ok"; mkFileInfo "b.srt" "malformed"; mkFileInfo "c.srt" "ok"]
       world0).1
  = [status_success; status_error; status_success].
Proof. vm_compute. reflexivity. Qed.

(** * Further properties of the code *)

(** ** The round-robin cursor *)

Lemma after_calls_frame n st :
  request_counts (after_calls n st) = request_counts st /\
  last_request_times (after_calls n st) = last_request_times st.
Proof.
  induction n as [|n [IHc IHl]]; [split; reflexivity|].
  simpl. split; assumption.
Qed.

Lemma after_calls_index n st :
  (0 < n)%nat ->
  current_translator_index (after_calls n st)
  = ((current_translator_index st + n) mod n_translators)%nat.
Proof.
  intros Hn. induction n as [|n IH]; [lia|].
  cbn [after_calls]. unfold get_next_translator, snd, set_index.
  cbn [current_translator_index].
  destruct n as [|n].
  - simpl after_calls. reflexivity.
  - rewrite IH by lia. unfold n_translators.
    rewrite Nat.Div0.add_mod_idemp_l. f_equal. lia.
Qed.

(** X1. [get_next_translator] hands the slots out in rotation: the call made
    after [n] earlier calls returns slot [(cursor + n + 1) mod 4], which is
    a slot that exists; four calls in a row return four different slots and
    leave the cursor where it would be after none; and no call touches a
    counter or a last request time. *)
Theorem get_next_translator_round_robin (st : SmartTranslator) (n : nat) :
  fst (get_next_translator (after_calls n st))
    = ((current_translator_index st + S n) mod 4)%nat /\
  (fst (get_next_translator (after_calls n st)) < 4)%nat /\
  (forall m, (n < m < n + 4)%nat ->
     fst (get_next_translator (after_calls m st))
     <> fst (get_next_translator (after_calls n st))) /\
  fst (get_next_translator (after_calls (n + 4) st))
    = fst (get_next_translator (after_calls n st)) /\
  request_counts (after_calls n st) = request_counts st /\
  last_request_times (after_calls n st) = last_request_times st.
Proof.
  assert (Hidx : forall k,
             fst (get_next_translator (after_calls k st))
             = ((current_translator_index st + S k) mod 4)%nat).
  { intros k. change (fst (get_next_translator (after_calls k st)))
      with (current_translator_index (after_calls (S k) st)).
    apply after_calls_index. lia. }
  conj.
  - apply Hidx.
  - rewrite Hidx. apply Nat.mod_upper_bound. discriminate.
  - intros m Hm. rewrite !Hidx. intros Heq.
    set (c := current_translator_index st) in *.
    pose proof (Nat.div_mod_eq (c + S m) 4) as H1.
    pose proof (Nat.div_mod_eq (c + S n) 4) as H2.
    lia.
  - rewrite !Hidx.
    replace (current_translator_index st + S (n + 4))%nat
      with (current_translator_index st + S n + 1 * 4)%nat by lia.
    apply Nat.Div0.mod_add.
  - apply after_calls_frame.
  - apply after_calls_frame.
Qed.

(** ** Blank texts *)

Lemma lstrip_empty_iff s : lstrip s = EmptyString <-> all_space s = true.
Proof.
  induction s as [|c s IH]; simpl; [tauto|].
  destruct (isspace c); simpl; [exact IH|]. split; discriminate.
Qed.

Lemma strip_all_space s : all_space s = true -> strip s = EmptyString.
Proof.
  intros H. unfold strip. apply lstrip_empty_iff in H. rewrite H. reflexivity.
Qed.

(** ** Cutting a list into batches *)

Lemma range_step_lt (stop step k : nat) :
  (0 < step)%nat -> (k < (stop + step - 1) / step)%nat -> (k * step < stop)%nat.
Proof.
  intros Hpos Hk.
  pose proof (Nat.div_mod_eq (stop + step - 1) step) as Hdm.
  pose proof (Nat.mod_upper_bound (stop + step - 1) step) as Hlt.
  nia.
Qed.

(** X3. The batches of a positive size cut the list in consecutive pieces:
    put end to end they give the list back, there are
    [ceil(len / batch_size)] of them, and each holds at least one and at
    most [batch_size] elements (so an empty list gives no batch). *)
Theorem batches_partition (batch_size : nat) (texts : list string) :
  (0 < batch_size)%nat ->
  concat (batches batch_size texts) = texts /\
  length (batches batch_size texts) = ((length texts + batch_size - 1) / batch_size)%nat /\
  Forall (fun batch => (1 <= length batch <= batch_size)%nat) (batches batch_size texts).
Proof.
  intros Hpos. conj.
  - apply concat_batches. exact Hpos.
  - unfold batches, range_step. rewrite !length_map, length_seq. reflexivity.
  - unfold batches, range_step. rewrite map_map.
    apply Forall_forall. intros batch Hin.
    apply list_elem_of_In in Hin. apply in_map_iff in Hin.
    destruct Hin as (k & <- & Hk). apply in_seq in Hk.
    pose proof (range_step_lt (length texts) batch_size k Hpos ltac:(lia)) as Hlt.
    unfold slice. rewrite length_take, length_drop. lia.
Qed.

Lemma batches_partition_witness :
  concat (batches 5 seven_texts) = seven_texts /\
  length (batches 5 seven_texts) = ((length seven_texts + 5 - 1) / 5)%nat /\
  Forall (fun batch => (1 <= length batch <= 5)%nat) (batches 5 seven_texts).
Proof. apply (batches_partition 5 seven_texts). lia. Defined.

(** ** Acquiring a slot *)

Lemma should_wait_false st now i st1 :
  should_wait st now i = (Ret false, st1) ->
  exists last_request count,
    last_request_times st1 !! i = Some last_request /\
    request_counts st1 !! i = Some count /\
    (min_delay_between_requests <= now - last_request)%Q /\
    (count < max_requests_per_minute)%Z.
Proof.
  unfold should_wait. intros H.
  destruct (last_request_times st !! i) as [l|] eqn:El; [|discriminate].
  destruct (Qlt_bool (now - l) min_delay_between_requests) eqn:Edelay; [discriminate|].
  apply Qlt_bool_false_iff in Edelay.
  set (st2 := if Qlt_bool 60 (now - l) then set_count i 0 st else st) in H.
  assert (Hl2 : last_request_times st2 !! i = Some l).
  { subst st2. destruct (Qlt_bool 60 (now - l)); exact El. }
  destruct (request_counts st2 !! i) as [c|] eqn:Ec; [|discriminate].
  destruct (max_requests_per_minute <=? c)%Z eqn:Emax; [discriminate|].
  injection H as <-. apply Z.leb_gt in Emax.
  exists l, c. conj; assumption.
Qed.

Lemma should_wait_counters_bounded st now i :
  counters_bounded st -> counters_bounded (snd (should_wait st now i)).
Proof.
  intros Hb. unfold should_wait.
  destruct (last_request_times st !! i) as [l|]; [|exact Hb].
  destruct (Qlt_bool (now - l) min_delay_between_requests); [exact Hb|].
  assert (Hb2 : counters_bounded
                  (if Qlt_bool 60 (now - l) then set_count i 0 st else st)).
  { destruct (Qlt_bool 60 (now - l)); [|exact Hb].
    intros j c. simpl. destruct (decide (i = j)) as [->|Hne].
    - rewrite lookup_insert_eq. intros [= <-]. unfold max_requests_per_minute. lia.
    - rewrite lookup_insert_ne by exact Hne. apply Hb. }
  destruct (request_counts _ !! i) as [c|]; [|exact Hb2].
  destruct (max_requests_per_minute <=? c)%Z; exact Hb2.
Qed.

(** What the polling loop leaves behind, whatever the translator: the calls
    made so far, a clock that has not gone back, bounded counters if they
    were, and, when it hands out a slot, a slot that is eligible. *)
Lemma wait_loop_post fuel : forall st w i o st1 w1,
  wait_loop fuel st w i = Some (o, st1, w1) ->
  calls w1 = calls w /\ draws w1 = draws w /\ ticks w1 = ticks w /\
  (clock w <= clock w1)%Q /\
  (counters_bounded st -> counters_bounded st1) /\
  (forall j, o = Ret j ->
     exists last_request count,
       last_request_times st1 !! j = Some last_request /\
       request_counts st1 !! j = Some count /\
       (min_delay_between_requests <= clock w1 - last_request)%Q /\
       (count < max_requests_per_minute)%Z).
Proof.
  induction fuel as [|fuel IH]; intros st w i o st1 w1 H; [discriminate|].
  simpl in H.
  pose proof (should_wait_counters_bounded st (clock w) i) as Hb.
  destruct (should_wait st (clock w) i) as [[[|]|e] st2] eqn:Esw.
  - apply IH in H. destruct H as (Hc & Hd & Ht & Hclk & Hbd & Hj).
    simpl in Hc, Hd, Ht, Hclk. conj; auto; try lra.
    all: intros Hst; apply Hbd; exact (Hb Hst).
  - injection H as <- <- <-. conj; auto; try reflexivity; try lra.
    all: intros j [= <-]; apply (should_wait_false _ _ _ _ Esw).
  - injection H as <- <- <-. conj; auto; try reflexivity; try lra.
    all: intros j Hj; discriminate Hj.
Qed.

Lemma acquire_post st w i o st1 w1 :
  acquire st w i = (o, st1, w1) ->
  calls w1 = calls w /\ draws w1 = draws w /\ ticks w1 = ticks w /\
  (clock w <= clock w1)%Q /\
  (counters_bounded st -> counters_bounded st1) /\
  (forall j, o = Ret j ->
     exists last_request count,
       last_request_times st1 !! j = Some last_request /\
       request_counts st1 !! j = Some count /\
       (min_delay_between_requests <= clock w1 - last_request)%Q /\
       (count < max_requests_per_minute)%Z).
Proof.
  unfold acquire. intros H.
  destruct (wait_loop (wait_bound st w) st w i) as [[[o' st'] w']|] eqn:E.
  - injection H as <- <- <-. exact (wait_loop_post _ _ _ _ _ _ _ E).
  - exfalso. exact (wait_loop_terminates st w i E).
Qed.

(** X4. On a translator with its four slots, the polling loop of
    [translate_with_smart_retry] always ends and hands out one of the four
    slots, and that slot is eligible at the time the loop ends: its last
    request is at least 0.08s old and its counter is below 45. Waiting makes
    no remote call and never moves the clock back. *)
Theorem acquire_gives_eligible_slot (st : SmartTranslator) (w : World) (i : nat) :
  wf st -> (i < 4)%nat ->
  exists j st1 w1 last_request count,
    acquire st w i = (Ret j, st1, w1) /\
    (j < 4)%nat /\
    last_request_times st1 !! j = Some last_request /\
    request_counts st1 !! j = Some count /\
    (8 # 100 <= clock w1 - last_request)%Q /\
    (count < 45)%Z /\
    calls w1 = calls w /\
    (clock w <= clock w1)%Q.
Proof.
  intros Hwf Hi.
  destruct (acquire_wf st w i Hwf Hi) as (j & st1 & w1 & Heq & Hj & _).
  destruct (acquire_post st w i _ _ _ Heq) as (Hc & _ & _ & Hclk & _ & Hel).
  destruct (Hel j eq_refl) as (l & c & Hl & Hcnt & Hdelay & Hlt).
  exists j, st1, w1, l, c. conj; assumption.
Qed.

Lemma acquire_gives_eligible_slot_witness :
  exists j st1 w1 last_request count,
    acquire SmartTranslator_init world0 1 = (Ret j, st1, w1) /\
    (j < 4)%nat /\
    last_request_times st1 !! j = Some last_request /\
    request_counts st1 !! j = Some count /\
    (8 # 100 <= clock w1 - last_request)%Q /\
    (count < 45)%Z /\
    calls w1 = calls world0 /\
    (clock world0 <= clock w1)%Q.
Proof.
  apply (acquire_gives_eligible_slot SmartTranslator_init world0 1).
  - intros i Hi. unfold n_translators in Hi.
    destruct i as [|[|[|[|i]]]]; try lia; split; eexists; reflexivity.
  - lia.
Defined.

(** ** What a retried translation does to the counters and to the port *)

Lemma counters_bounded_init : counters_bounded SmartTranslator_init.
Proof.
  intros i c H. unfold SmartTranslator_init in H. simpl in H.
  repeat (apply lookup_insert_Some in H; destruct H as [[_ <-]|[_ H]];
          [unfold max_requests_per_minute; lia|]).
  rewrite lookup_empty in H. discriminate.
Qed.

Lemma counters_bounded_set_count i c st :
  (0 <= c <= max_requests_per_minute)%Z ->
  counters_bounded st -> counters_bounded (set_count i c st).
Proof.
  intros Hc Hb j c'. simpl. destruct (decide (i = j)) as [->|Hne].
  - rewrite lookup_insert_eq. intros [= <-]. exact Hc.
  - rewrite lookup_insert_ne by exact Hne. apply Hb.
Qed.

Section RetryPost.

Variable port : list string -> string -> PortResult.
Variable random : nat -> Q.

(** Whatever the state of the translator and whatever comes of it, the retry
    loop keeps the counters within their bounds and makes at most
    [remaining] remote calls, all of them for its text. *)
Lemma retry_loop_post remaining : forall attempt max_retries text st w o st' w',
  retry_loop port random remaining attempt max_retries text st w = (o, st', w') ->
  (counters_bounded st -> counters_bounded st') /\
  exists k, (k <= remaining)%nat /\ calls w' = repeat text k ++ calls w.
Proof.
  induction remaining as [|remaining IH];
    intros attempt max_retries text st w o st' w' H.
  - simpl in H. injection H as <- <- <-.
    split; [auto|]. exists 0%nat. split; [lia|reflexivity].
  - cbn [retry_loop] in H.
    destruct (get_next_translator st) as [i0 st0] eqn:Enext.
    assert (Hb0 : counters_bounded st -> counters_bounded st0).
    { unfold get_next_translator in Enext. injection Enext as _ <-. auto. }
    destruct (acquire st0 w i0) as [[oa st1] w1] eqn:Eacq.
    destruct (acquire_post _ _ _ _ _ _ Eacq) as (Hc1 & _ & _ & _ & Hb1 & Hel).
    destruct oa as [j|e].
    2:{ injection H as <- <- <-. split; [auto|].
        exists 0%nat. split; [lia|exact Hc1]. }
    destruct (Hel j eq_refl) as (l & c & Hl & Hcnt & _ & Hlt).
    unfold translate in H. rewrite Hcnt, Hc1 in H.
    assert (Hstep : forall st2 w2,
              (counters_bounded st -> counters_bounded st2) ->
              calls w2 = text :: calls w ->
              (counters_bounded st2 -> counters_bounded st') /\
              (exists k, (k <= remaining)%nat /\ calls w' = repeat text k ++ calls w2) ->
              (counters_bounded st -> counters_bounded st') /\
              exists k, (k <= S remaining)%nat /\ calls w' = repeat text k ++ calls w).
    { intros st2 w2 Hb2 Hc2 (Hb' & k & Hk & Hcalls). split; [auto|].
      exists (S k). split; [lia|].
      rewrite Hcalls, Hc2. apply repeat_snoc_app. }
    assert (H45 : counters_bounded st ->
                  counters_bounded (set_count j max_requests_per_minute st1)).
    { intros Hb. apply counters_bounded_set_count; [|auto].
      unfold max_requests_per_minute. lia. }
    destruct (port (calls w) text) as [translated|e].
    + injection H as <- <- <-. split.
      * intros Hb. pose proof (Hb1 (Hb0 Hb) j c Hcnt) as Hc.
        apply (counters_bounded_set_count j (c + 1)); [lia|auto].
      * exists 1%nat. split; [lia|reflexivity].
    + destruct (contains "429" e || contains "rate" (lower e));
        destruct (Z.of_nat attempt <? Z.of_nat max_retries - 1)%Z.
      * apply IH in H. eapply (Hstep _ _); [exact H45| |exact H]. reflexivity.
      * apply IH in H. eapply (Hstep _ _); [exact H45| |exact H]. reflexivity.
      * apply IH in H. eapply (Hstep _ _); [| |exact H]; [auto|reflexivity].
      * injection H as <- <- <-. split; [auto|].
        exists 1%nat. split; [lia|reflexivity].
Qed.

(** X5. Whatever the state of the translator, whatever the port answers and
    whether it returns or raises, [translate_with_smart_retry] makes at most
    [max_retries] remote calls, every one of them for the text it was given
    (none at all when [max_retries] is 0), and it leaves every counter
    between 0 and 45 if they all were. *)
Theorem translate_with_smart_retry_calls_bounded
    (text : string) (max_retries : nat) (st : SmartTranslator) (w : World) :
  (exists k, (k <= max_retries)%nat /\
     calls (translate_with_smart_retry port random text max_retries st w).2
     = repeat text k ++ calls w) /\
  (counters_bounded st ->
   counters_bounded (translate_with_smart_retry port random text max_retries st w).1.2).
Proof.
  unfold translate_with_smart_retry.
  destruct (retry_loop port random max_retries 0 max_retries text st w)
    as [[o st'] w'] eqn:E.
  destruct (retry_loop_post _ _ _ _ _ _ _ _ _ E) as [Hb Hk].
  split; [exact Hk|exact Hb].
Qed.

End RetryPost.

(** ** What the batch translators do to the counters and to the port *)

Lemma sent_only_refl texts w w' : calls w' = calls w -> sent_only texts w w'.
Proof. intros H. exists []. split; [exact H|]. intros t []. Qed.

Lemma sent_only_trans texts w1 w2 w3 :
  sent_only texts w1 w2 -> sent_only texts w2 w3 -> sent_only texts w1 w3.
Proof.
  intros (e1 & H1 & Hin1) (e2 & H2 & Hin2). exists (e2 ++ e1). split.
  - rewrite H2, H1. apply app_assoc.
  - intros t Ht. apply in_app_or in Ht. destruct Ht; auto.
Qed.

Lemma sent_only_mono texts texts' w w' :
  (forall t, In t texts -> In t texts') -> sent_only texts w w' -> sent_only texts' w w'.
Proof. intros Hsub (e & H & Hin). exists e. split; [exact H|]. auto. Qed.

Section BatchPost.

Variable port : list string -> string -> PortResult.
Variable random : nat -> Q.
Variable sched : nat -> nat.

Lemma translate_with_smart_retry_post text st w :
  (counters_bounded st ->
   counters_bounded (translate_with_smart_retry port random text 3 st w).1.2) /\
  sent_only [text] w (translate_with_smart_retry port random text 3 st w).2.
Proof.
  unfold translate_with_smart_retry.
  destruct (retry_loop port random 3 0 3 text st w) as [[o st'] w'] eqn:E.
  destruct (retry_loop_post port random _ _ _ _ _ _ _ _ _ E) as [Hb (k & _ & Hk)].
  split; [exact Hb|]. exists (repeat text k). split; [exact Hk|].
  intros t Ht. apply repeat_spec in Ht. left. congruence.
Qed.

Lemma translate_batch_sequential_loop_post texts : forall results st w,
  (counters_bounded st ->
   counters_bounded (translate_batch_sequential_loop port random texts results st w).1.2) /\
  sent_only texts w (translate_batch_sequential_loop port random texts results st w).2.
Proof.
  induction texts as [|text rest IH]; intros results st w.
  - simpl. split; [auto|]. apply sent_only_refl. reflexivity.
  - cbn [translate_batch_sequential_loop].
    destruct (translate_with_smart_retry_post text st w) as [Hb Hs].
    apply (sent_only_mono [text] (text :: rest)) in Hs;
      [|intros t [->|[]]; left; reflexivity].
    destruct (translate_with_smart_retry port random text 3 st w)
      as [[[translated|e] st1] w1]; simpl in Hb, Hs;
      match goal with
      | |- context [translate_batch_sequential_loop _ _ _ ?r ?s ?x] =>
        destruct (IH r s x) as [Hb' Hs']
      end;
      apply (sent_only_mono rest (text :: rest)) in Hs'; try (intros t Ht; right; exact Ht);
      (split; [auto|]);
      (eapply sent_only_trans; [|exact Hs']);
      destruct Hs as (ex & Hex & Hin); exists ex; (split; [exact Hex|exact Hin]).
Qed.

Lemma run_workers_post texts n pool queue st w :
  Forall (fun wk => forall t, In t (todo wk) -> In t texts) pool ->
  sent_only texts w (run_workers port random sched n pool queue st w).2.
Proof.
  intros Hpool.
  pose proof (run_workers_invariant port random sched
    (fun pool' _ _ w' =>
       sent_only texts w w' /\
       Forall (fun wk => forall t, In t (todo wk) -> In t texts) pool')) as H.
  specialize (H
    ltac:(intros l1 wk l2 queue0 st0 w0 (Hs & Hp) Htodo;
          apply Forall_app in Hp; destruct Hp as [Hl1 Hl2];
          apply Forall_cons in Hl2; destruct Hl2 as [Hwk Hl2];
          split; [|apply Forall_app; split; assumption];
          eapply sent_only_trans; [exact Hs|]; apply sent_only_refl; reflexivity)).
  specialize (H
    ltac:(intros l1 wk l2 queue0 st0 w0 text rest (Hs & Hp) Htodo;
          apply Forall_app in Hp; destruct Hp as [Hl1 Hl2];
          apply Forall_cons in Hl2; destruct Hl2 as [Hwk Hl2];
          rewrite Htodo in Hwk;
          destruct (translate_with_smart_retry_post text st0 (tick w0)) as [_ Hs1];
          apply (sent_only_mono [text] texts) in Hs1;
            [|intros t [->|[]]; apply Hwk; left; reflexivity];
          assert (Hs0 : sent_only texts w (tick w0))
            by (eapply sent_only_trans; [exact Hs|]; apply sent_only_refl; reflexivity);
          destruct (translate_with_smart_retry port random text 3 st0 (tick w0))
            as [[[translated|e] st1] w1]; simpl in Hs1;
          (split;
           [eapply sent_only_trans; [exact Hs0|];
            eapply sent_only_trans; [exact Hs1|]; apply sent_only_refl; reflexivity
           |apply Forall_app; split; [exact Hl1|];
            apply Forall_cons; split; [|exact Hl2];
            intros t Ht; apply Hwk; right; exact Ht]))).
  specialize (H n pool queue st w (conj (sent_only_refl texts w w eq_refl) Hpool)).
  destruct (run_workers port random sched n pool queue st w) as [[[pool' queue'] st'] w'].
  apply H.
Qed.

Lemma in_batches batch_size (texts batch : list string) t :
  In batch (batches batch_size texts) -> In t batch -> In t texts.
Proof.
  unfold batches. intros Hb Ht. apply in_map_iff in Hb.
  destruct Hb as (i & <- & _). unfold slice in Ht.
  apply list_elem_of_In in Ht. apply list_elem_of_In.
  apply elem_of_take in Ht. destruct Ht as (k & Hk & _).
  apply list_elem_of_lookup. rewrite lookup_drop in Hk. eauto.
Qed.

Lemma translate_batch_threaded_safe_post texts st w :
  sent_only texts w (translate_batch_threaded_safe port random sched texts st w).2.
Proof.
  unfold translate_batch_threaded_safe.
  set (pool := map (fun batch => mkWorker batch ∅) (batches 5 texts)).
  assert (Hpool : Forall (fun wk => forall t, In t (todo wk) -> In t texts) pool).
  { subst pool. apply Forall_map. apply Forall_forall. intros batch Hin t Ht.
    apply list_elem_of_In in Hin. exact (in_batches 5 texts batch t Hin Ht). }
  pose proof (run_workers_post texts (pool_steps pool) pool [] st w Hpool) as H.
  destruct (run_workers port random sched (pool_steps pool) pool [] st w)
    as [[[pool' queue'] st'] w']. exact H.
Qed.

(** X6. Whatever the state of the translator and the port, each of the two
    batch translators makes remote calls for texts of its input list only
    (none for an empty list), the threaded one under every interleaving of
    its threads; and [translate_batch_sequential] leaves every counter
    between 0 and 45 if they all were. Nothing is said of the counters under
    threads, where the test of a counter and its update are separate
    steps. *)
Theorem batch_translators_post (texts : list string) (st : SmartTranslator) (w : World) :
  sent_only texts w (translate_batch_sequential port random texts st w).2 /\
  sent_only texts w (translate_batch_threaded_safe port random sched texts st w).2 /\
  (counters_bounded st ->
   counters_bounded (translate_batch_sequential port random texts st w).1.2).
Proof.
  destruct (translate_batch_sequential_loop_post texts ∅ st w) as [Hb1 Hs1].
  pose proof (translate_batch_threaded_safe_post texts st w) as Hs2.
  conj; auto.
Qed.

End BatchPost.

(** ** What translating a document does *)

Section DocumentPost.

Variable port : list string -> string -> PortResult.
Variable random : nat -> Q.
Variable sched : nat -> nat.
Variable SubRipTime : Type.

Lemma translate_batches_post bs : forall m st w,
  sent_only (concat bs) w (translate_batches port random sched bs m st w).2.
Proof.
  induction bs as [|batch rest IH]; intros m st w.
  - simpl. apply sent_only_refl. reflexivity.
  - cbn [translate_batches concat].
    assert (Hs1 : sent_only batch w
                    (if (length batch <=? 10)%nat
                     then translate_batch_threaded_safe port random sched batch st w
                     else translate_batch_sequential port random batch st w).2).
    { destruct (length batch <=? 10)%nat.
      - apply translate_batch_threaded_safe_post.
      - apply translate_batch_sequential_loop_post. }
    destruct (if (length batch <=? 10)%nat
              then translate_batch_threaded_safe port random sched batch st w
              else translate_batch_sequential port random batch st w)
      as [[batch_results st1] w1].
    simpl in Hs1.
    pose proof (IH (batch_results ∪ m) st1 (sleep (1 # 10) w1)) as Hs2.
    eapply sent_only_trans.
    + eapply sent_only_mono; [|exact Hs1]. intros t Ht. apply in_or_app. left. exact Ht.
    + eapply sent_only_mono; [|].
      * intros t Ht. apply in_or_app. right. exact Ht.
      * destruct Hs2 as (ex & Hex & Hin). exists ex. split; [exact Hex|exact Hin].
Qed.

Lemma in_texts_to_translate t (subs : list (SubRipItem SubRipTime)) :
  In t (texts_to_translate SubRipTime subs) <->
  exists sub, In sub subs /\ text _ sub = t /\ truthy (strip t) = true.
Proof.
  unfold texts_to_translate. rewrite in_map_iff. split.
  - intros (sub & <- & Hin). apply list_elem_of_In in Hin.
    apply list_elem_of_filter in Hin. destruct Hin as [Hs Hin].
    exists sub. conj; [apply list_elem_of_In; exact Hin|reflexivity|exact Hs].
  - intros (sub & Hin & <- & Hs). exists sub. split; [reflexivity|].
    apply list_elem_of_In. apply list_elem_of_filter. split; [exact Hs|].
    apply list_elem_of_In. exact Hin.
Qed.

Lemma truthy_strip_not_all_space t : truthy (strip t) = true -> all_space t = false.
Proof.
  intros H. destruct (all_space t) eqn:E; [|reflexivity].
  apply strip_all_space in E. rewrite E in H. discriminate.
Qed.

(** X7. Translating a document only adds to the log of remote calls, and
    every call it adds is for the text of some entry of the document that
    has a character other than white space: blank texts and texts that are
    not in the document are never sent. *)
Theorem translate_subs_sends_document_texts_only
    (subs : list (SubRipItem SubRipTime)) (w : World) :
  exists extra,
    calls (translate_subs port random sched SubRipTime subs w).2 = extra ++ calls w /\
    forall t, In t extra ->
      all_space t = false /\ exists sub, In sub subs /\ text _ sub = t.
Proof.
  assert (H : sent_only (texts_to_translate SubRipTime subs) w
                (translate_subs port random sched SubRipTime subs w).2).
  { unfold translate_subs.
    destruct (texts_to_translate SubRipTime subs) as [|t0 ts] eqn:E.
    - apply sent_only_refl. reflexivity.
    - pose proof (translate_batches_post (batches 25 (t0 :: ts)) ∅
                    SmartTranslator_init w) as Hs.
      rewrite concat_batches in Hs by lia.
      destruct (translate_batches port random sched (batches 25 (t0 :: ts)) ∅
                  SmartTranslator_init w) as [[m st1] w1]. exact Hs. }
  destruct H as (extra & Hex & Hin). exists extra. split; [exact Hex|].
  intros t Ht. apply Hin in Ht. apply in_texts_to_translate in Ht.
  destruct Ht as (sub & Hsub & Htext & Hs).
  split; [apply truthy_strip_not_all_space; exact Hs|eauto].
Qed.

Lemma texts_to_translate_nil (subs : list (SubRipItem SubRipTime)) :
  texts_to_translate SubRipTime subs = [] <->
  forall sub, In sub subs -> truthy (strip (text _ sub)) = false.
Proof.
  split.
  - intros E sub Hin. destruct (truthy (strip (text _ sub))) eqn:Hs; [|reflexivity].
    assert (Ht : In (text _ sub) (texts_to_translate SubRipTime subs)).
    { apply in_texts_to_translate. eauto. }
    rewrite E in Ht. destruct Ht.
  - intros H. destruct (texts_to_translate SubRipTime subs) as [|t ts] eqn:E;
      [reflexivity|].
    assert (Ht : In t (texts_to_translate SubRipTime subs)) by (rewrite E; left; reflexivity).
    apply in_texts_to_translate in Ht. destruct Ht as (sub & Hin & <- & Hs).
    rewrite (H sub Hin) in Hs. discriminate.
Qed.

(** *** The translated document *)

Section Retext.

(** A function [g] that every retried translation computes on a translator
    with its four slots. *)
Variable g : string -> string.
Hypothesis translation_is_g : forall text st w,
  wf st ->
  match translate_with_smart_retry port random text 3 st w with
  | (Ret translated, st', _) => wf st' /\ translated = g text
  | (Raise _, st', _) => wf st' /\ text = g text
  end.

Lemma translate_batches_values bs : forall m st w,
  wf st -> entries_satisfy (fun t v => v = g t) m ->
  entries_satisfy (fun t v => v = g t)
    (translate_batches port random sched bs m st w).1.1 /\
  dom (translate_batches port random sched bs m st w).1.1
    = list_to_set (concat bs) ∪ dom m.
Proof.
  induction bs as [|batch rest IH]; intros m st w Hwf Hm.
  - simpl. split; [exact Hm|]. set_solver.
  - cbn [translate_batches concat].
    assert (Hb : match (if (length batch <=? 10)%nat
                        then translate_batch_threaded_safe port random sched batch st w
                        else translate_batch_sequential port random batch st w) with
                 | (batch_results, st', _) =>
                   wf st' /\ entries_satisfy (fun t v => v = g t) batch_results /\
                   dom batch_results = list_to_set batch
                 end).
    { destruct (length batch <=? 10)%nat.
      - pose proof (translate_batch_threaded_safe_calls port random sched 1 3
                      (attempts_one_to_three port) EmptyString batch st w Hwf) as H1.
        pose proof (translate_batch_threaded_safe_values port random sched
                      (fun t v => v = g t) wf translation_is_g batch st w Hwf) as H2.
        pose proof (translate_batch_threaded_safe_dom port random sched batch st w) as H3.
        destruct (translate_batch_threaded_safe port random sched batch st w)
          as [[r st'] w']. destruct H1 as [H1 _]. conj; assumption.
      - pose proof (translate_batch_sequential_loop_calls port random 1 3
                      (attempts_one_to_three port) EmptyString batch ∅ st w Hwf) as H1.
        pose proof (translate_batch_sequential_loop_values port random
                      (fun t v => v = g t) wf translation_is_g batch ∅ st w Hwf
                      (entries_satisfy_empty _)) as H2.
        pose proof (translate_batch_sequential_dom port random batch st w) as H3.
        unfold translate_batch_sequential in *.
        destruct (translate_batch_sequential_loop port random batch ∅ st w)
          as [[r st'] w']. destruct H1 as [H1 _]. conj; assumption. }
    destruct (if (length batch <=? 10)%nat
              then translate_batch_threaded_safe port random sched batch st w
              else translate_batch_sequential port random batch st w)
      as [[batch_results st1] w1].
    destruct Hb as (Hwf1 & Hv & Hd).
    destruct (IH (batch_results ∪ m) st1 (sleep (1 # 10) w1) Hwf1
                (entries_satisfy_union _ _ _ Hv Hm)) as [Hv' Hd'].
    split; [exact Hv'|].
    rewrite Hd', dom_union_L, Hd, list_to_set_app_L. set_solver.
Qed.

Lemma apply_translation_retext m (sub : SubRipItem SubRipTime) :
  entries_satisfy (fun t v => v = g t) m ->
  (truthy (strip (text _ sub)) = true -> text _ sub ∈ dom m) ->
  apply_translation SubRipTime m sub = retext SubRipTime g sub.
Proof.
  intros Hm Hdom. unfold apply_translation, retext.
  destruct (truthy (strip (text _ sub))); [|reflexivity].
  specialize (Hdom eq_refl). apply elem_of_dom in Hdom. destruct Hdom as [v Hv].
  rewrite Hv, (Hm _ _ Hv). reflexivity.
Qed.

Lemma translate_subs_retext (subs : list (SubRipItem SubRipTime)) w :
  (translate_subs port random sched SubRipTime subs w).1
  = map (retext SubRipTime g) subs.
Proof.
  unfold translate_subs.
  destruct (texts_to_translate SubRipTime subs) as [|t0 ts] eqn:E.
  - simpl. pose proof (proj1 (texts_to_translate_nil subs) E) as Hblank.
    transitivity (map (fun sub : SubRipItem SubRipTime => sub) subs);
      [symmetry; apply map_id|].
    apply map_ext_in. intros sub Hin. unfold retext.
    rewrite (Hblank sub Hin). reflexivity.
  - destruct (translate_batches_values (batches 25 (t0 :: ts)) ∅ SmartTranslator_init w
                wf_init (entries_satisfy_empty _)) as [Hv Hd].
    rewrite concat_batches in Hd by lia.
    assert (Hd2 : dom (translate_batches port random sched (batches 25 (t0 :: ts)) ∅
                         SmartTranslator_init w).1.1
                  = list_to_set (texts_to_translate SubRipTime subs) ∪ dom (∅ : gmap string string))
      by (rewrite E; exact Hd).
    clear Hd.
    destruct (translate_batches port random sched (batches 25 (t0 :: ts)) ∅
                SmartTranslator_init w) as [[m st1] w1].
    cbn [fst snd] in Hv, Hd2 |- *. apply map_ext_in. intros sub Hin.
    apply apply_translation_retext; [exact Hv|].
    intros Hs. rewrite Hd2.
    apply elem_of_union_l. apply elem_of_list_to_set. apply list_elem_of_In.
    apply in_texts_to_translate. eauto.
Qed.

End Retext.

End DocumentPost.

(** X8. With a port whose answer depends on the text alone, translating a
    document replaces the text of every entry that is not blank by the
    port's translation of it (or leaves it where the port fails on it), and
    leaves every blank entry as it is, whatever the interleaving of the
    threads and whatever other texts the document holds. *)
Theorem translate_subs_deterministic
    (port : list string -> string -> PortResult) (random : nat -> Q) (sched : nat -> nat)
    (SubRipTime : Type) (subs : list (SubRipItem SubRipTime)) (w : World) :
  (forall h1 h2 text, port h1 text = port h2 text) ->
  (translate_subs port random sched SubRipTime subs w).1
  = map (retext SubRipTime (port_translation port)) subs.
Proof.
  intros Hdet.
  apply (translate_subs_retext port random sched SubRipTime (port_translation port)).
  intros text st w0 Hwf.
  exact (translate_with_smart_retry_translated port random Hdet text st w0 Hwf).
Qed.

Lemma translate_subs_deterministic_witness :
  (translate_subs port_vi random_half round_robin time three_hello world0).1
  = map (retext time (port_translation port_vi)) three_hello.
Proof.
  apply (translate_subs_deterministic port_vi random_half round_robin time
           three_hello world0).
  intros h1 h2 text. reflexivity.
Defined.

Lemma retext_id (SubRipTime : Type) (sub : SubRipItem SubRipTime) :
  retext SubRipTime (fun t => t) sub = sub.
Proof. unfold retext. destruct (truthy _); [|reflexivity]. destruct sub; reflexivity. Qed.

(** X9. When every remote call fails, translating a file gives back the
    parsed document: no entry is changed, and the result of
    [translate_single_file_ultra_fast] is a success carrying the
    serialization of the document as parsed (or the error of that
    serialization). A dead port costs the translation, never the file. *)
Theorem translate_single_file_port_down
    (port : list string -> string -> PortResult) (random : nat -> Q) (sched : nat -> nat)
    (SubRipTime : Type) (to_time : SubRipTime -> outcome time)
    (from_string : string -> outcome (list (SubRipItem SubRipTime)))
    (file_content filename : string) (subs : list (SubRipItem SubRipTime)) (w : World) :
  (forall h text, exists e, port h text = Failed e) ->
  from_string file_content = Ret subs ->
  (translate_subs port random sched SubRipTime subs w).1 = subs /\
  (translate_single_file_ultra_fast port random sched SubRipTime to_time from_string
     file_content filename w).1
  = match srt_to_string SubRipTime to_time subs with
    | Ret result => Success filename result (length subs)
    | Raise e => Error filename e
    end.
Proof.
  intros Hdown Hparse.
  assert (Hsubs : (translate_subs port random sched SubRipTime subs w).1 = subs).
  { rewrite (translate_subs_retext port random sched SubRipTime (fun t => t)).
    - transitivity (map (fun sub : SubRipItem SubRipTime => sub) subs); [|apply map_id].
      apply map_ext. apply retext_id.
    - intros text st w0 Hwf.
      destruct (translate_with_smart_retry_wf port random text 3 st w0 Hwf)
        as (st' & w' & -> & Hwf' & _).
      split; [exact Hwf'|].
      rewrite (attempts_all_fail port 3 text (calls w0)); [reflexivity|].
      intros k _. apply Hdown. }
  split; [exact Hsubs|].
  unfold translate_single_file_ultra_fast. rewrite Hparse.
  destruct (translate_subs port random sched SubRipTime subs w) as [subs1 w1].
  simpl in Hsubs. subst subs1.
  destruct (srt_to_string SubRipTime to_time subs); reflexivity.
Qed.

Lemma translate_single_file_port_down_witness :
  (translate_subs port_down random_half round_robin time three_hello world0).1
    = three_hello /\
  (translate_single_file_ultra_fast port_down random_half round_robin time Ret
     (fun _ => Ret three_hello) "" "movie.srt" world0).1
  = match srt_to_string time Ret three_hello with
    | Ret result => Success "movie.srt" result (length three_hello)
    | Raise e => Error "movie.srt" e
    end.
Proof.
  apply (translate_single_file_port_down port_down random_half round_robin time Ret
           (fun _ => Ret three_hello) "" "movie.srt" three_hello world0).
  - intros h text. exists "connection refused"%string. reflexivity.
  - reflexivity.
Defined.

(** X10. A file all of whose entries are blank (an empty file included) is
    serialized as it was parsed, without any remote call, any sleep or any
    use of the random source or the scheduler: the world is left as it
    was. *)
Theorem translate_single_file_nothing_to_translate
    (port : list string -> string -> PortResult) (random : nat -> Q) (sched : nat -> nat)
    (SubRipTime : Type) (to_time : SubRipTime -> outcome time)
    (from_string : string -> outcome (list (SubRipItem SubRipTime)))
    (file_content filename : string) (subs : list (SubRipItem SubRipTime)) (w : World) :
  from_string file_content = Ret subs ->
  (forall sub, In sub subs -> all_space (text _ sub) = true) ->
  translate_single_file_ultra_fast port random sched SubRipTime to_time from_string
    file_content filename w
  = (match srt_to_string SubRipTime to_time subs with
     | Ret result => Success filename result (length subs)
     | Raise e => Error filename e
     end, w).
Proof.
  intros Hparse Hblank.
  assert (E : texts_to_translate SubRipTime subs = []).
  { apply texts_to_translate_nil. intros sub Hin.
    rewrite (strip_all_space _ (Hblank sub Hin)). reflexivity. }
  unfold translate_single_file_ultra_fast, translate_subs. rewrite Hparse, E.
  destruct (srt_to_string SubRipTime to_time subs); reflexivity.
Qed.

Lemma translate_single_file_nothing_to_translate_witness :
  translate_single_file_ultra_fast port_vi random_half round_robin time Ret
    (fun _ => Ret blank_entries) "" "blank.srt" world0
  = (match srt_to_string time Ret blank_entries with
     | Ret result => Success "blank.srt" result (length blank_entries)
     | Raise e => Error "blank.srt" e
     end, world0).
Proof.
  apply (translate_single_file_nothing_to_translate port_vi random_half round_robin
           time Ret (fun _ => Ret blank_entries) "" "blank.srt" blank_entries world0).
  - reflexivity.
  - intros sub [<-|[<-|[]]]; reflexivity.
Defined.

(** ** Translation and serialization *)

Section Timing.

Variable SubRipTime : Type.
Variable to_time : SubRipTime -> outcome time.


End Timing.


(** ** Several files, and the archive *)

Section Files.

Variable port : list string -> string -> PortResult.
Variable random : nat -> Q.
Variable sched : nat -> nat.
Variable SubRipTime : Type.
Variable to_time : SubRipTime -> outcome time.
Variable from_string : string -> outcome (list (SubRipItem SubRipTime)).
Variable splitext : string -> string * string.

Abbreviation translate_all :=
  (translate_multiple_files_sequential port random sched SubRipTime to_time from_string).

(** X12. Translating a list of files in one run is translating a first part
    of it and then the rest in the world that the first part has left: the
    results are the two lists of results one after the other. In particular
    no file changes the result of a file before it. *)
Theorem translate_multiple_files_sequential_app (files1 files2 : list FileInfo) (w : World) :
  translate_all (files1 ++ files2) w
  = ((translate_all files1 w).1 ++ (translate_all files2 (translate_all files1 w).2).1,
     (translate_all files2 (translate_all files1 w).2).2).
Proof.
  revert w. induction files1 as [|f files1 IH]; intros w.
  - simpl. destruct (translate_all files2 w); reflexivity.
  - change ((f :: files1) ++ files2) with (f :: (files1 ++ files2)).
    cbn [translate_multiple_files_sequential].
    destruct (translate_single_file_ultra_fast port random sched SubRipTime to_time
                from_string (content f) (name f) w) as [result w1].
    rewrite IH.
    destruct (translate_all files1 (sleep (2 # 10) w1)) as [results1 w2].
    cbn [fst snd].
    destruct (translate_all files2 w2) as [results2 w3]. reflexivity.
Qed.

Lemma success_count_le results : (success_count results <= length results)%nat.
Proof.
  unfold success_count. induction results as [|r results IH]; simpl; [lia|].
  destruct (is_success r); lia.
Qed.

Lemma create_zip_file_length results :
  length (create_zip_file splitext results) = success_count results.
Proof.
  unfold success_count. induction results as [|r results IH]; [reflexivity|].
  destruct r; simpl; rewrite IH; reflexivity.
Qed.

Lemma create_zip_file_members results member_name data :
  In (member_name, data) (create_zip_file splitext results) ->
  exists filename subtitle_count,
    In (Success filename data subtitle_count) results /\
    member_name = (fst (splitext filename) +:+ "_vietnamese.srt")%string.
Proof.
  induction results as [|r results IH]; [intros []|].
  destruct r as [filename content0 n|filename e]; simpl.
  - intros [[= <- <-]|Hin].
    + exists filename, n. split; [left; reflexivity|reflexivity].
    + destruct (IH Hin) as (f & c & Hf & Hn). exists f, c. split; [right; exact Hf|exact Hn].
  - intros Hin. destruct (IH Hin) as (f & c & Hf & Hn).
    exists f, c. split; [right; exact Hf|exact Hn].
Qed.

(** X13. The archive built from the results of a run has one member for
    every success and none for an error, so members and errors together are
    as many as the input files. Every member is the translated content of an
    input file that parsed, stored under the stem of that file's name
    followed by [_vietnamese.srt]. *)
Theorem create_zip_file_of_run (files : list FileInfo) (w : World) :
  let results := (translate_all files w).1 in
  let members := create_zip_file splitext results in
  length members = success_count results /\
  (length members + error_count results = length files)%nat /\
  forall member_name data, In (member_name, data) members ->
    exists file subs,
      In file files /\
      from_string (content file) = Ret subs /\
      member_name = (fst (splitext (name file)) +:+ "_vietnamese.srt")%string /\
      exists w_i,
        srt_to_string SubRipTime to_time
          (translate_subs port random sched SubRipTime subs w_i).1 = Ret data.
Proof.
  intros results members.
  pose proof (translate_multiple_files_sequential_length port random sched SubRipTime
                to_time from_string files w) as Hlen.
  fold results in Hlen.
  conj.
  - apply create_zip_file_length.
  - subst members. rewrite create_zip_file_length. unfold error_count.
    pose proof (success_count_le results). lia.
  - intros member_name data Hin.
    apply create_zip_file_members in Hin.
    destruct Hin as (filename & n & Hres & ->).
    apply list_elem_of_In in Hres. apply list_elem_of_lookup in Hres.
    destruct Hres as [i Hi].
    assert (Hlt : (i < length files)%nat).
    { rewrite <- Hlen. apply lookup_lt_Some in Hi. exact Hi. }
    apply lookup_lt_is_Some in Hlt. destruct Hlt as [file Hfile].
    destruct (translate_multiple_files_sequential_lookup port random sched SubRipTime
                to_time from_string files w i file Hfile) as [w_i Hw_i].
    fold results in Hw_i. rewrite Hi in Hw_i. injection Hw_i as Hr.
    pose proof (translate_single_file_ultra_fast_result port random sched SubRipTime
                  to_time from_string (content file) (name file) w_i) as [Hname Hres].
    rewrite <- Hr in Hname, Hres. simpl in Hname. subst filename.
    destruct (from_string (content file)) as [subs|e] eqn:Eparse; [|discriminate].
    exists file, subs. conj.
    + apply list_elem_of_In. apply list_elem_of_lookup. eauto.
    + exact Eparse.
    + reflexivity.
    + exists w_i.
      destruct (srt_to_string SubRipTime to_time
                  (translate_subs port random sched SubRipTime subs w_i).1);
        [injection Hres as -> _; reflexivity|discriminate].
Qed.

End Files.

(** ** Backing off between attempts *)

Section Backoff.

Variable port : list string -> string -> PortResult.
Variable random : nat -> Q.

(** [random.random()] is never negative. *)
Hypothesis random_nonneg : forall n, (0 <= random n)%Q.

Lemma sleep_uniform_clock a b w :
  (a <= b)%Q -> (clock w + a <= clock (sleep_uniform random a b w))%Q.
Proof.
  intros Hab. unfold sleep_uniform, uniform, sleep. simpl.
  pose proof (random_nonneg (draws w)) as Hr.
  assert (0 <= (b - a) * random (draws w))%Q.
  { apply Qmult_le_0_compat; [lra|exact Hr]. }
  lra.
Qed.

Lemma retry_loop_backoff remaining : forall attempt max_retries text st w,
  wf st -> (attempt + remaining = max_retries)%nat ->
  (forall h, exists e, port h text = Failed e) ->
  (clock w + inject_Z (Z.of_nat (pred remaining)) * (2 # 10)
   <= clock (retry_loop port random remaining attempt max_retries text st w).2)%Q.
Proof.
  induction remaining as [|remaining IH];
    intros attempt max_retries text st w Hwf Hn Hdown.
  - cbn [retry_loop snd pred]. change (inject_Z (Z.of_nat 0)) with 0%Q. lra.
  - cbn [retry_loop].
    destruct (get_next_translator st) as [i0 st0] eqn:Enext.
    assert (Hi0 : (i0 < n_translators)%nat).
    { pose proof (get_next_translator_lt st) as H. rewrite Enext in H. exact H. }
    assert (Hwf0 : wf st0).
    { pose proof (get_next_translator_wf st Hwf) as H. rewrite Enext in H. exact H. }
    destruct (acquire_wf st0 w i0 Hwf0 Hi0) as (j & st1 & w1 & Heq & Hj & Hwf1 & _).
    destruct (acquire_post st0 w i0 _ _ _ Heq) as (_ & _ & _ & Hclk & _).
    rewrite Heq. unfold translate.
    destruct (Hdown (calls w1)) as [e ->].
    assert (Hpred : remaining <> 0%nat ->
              (inject_Z (Z.of_nat (pred (S remaining)))
               == inject_Z (Z.of_nat (pred remaining)) + 1)%Q).
    { intros Hne. destruct remaining as [|r]; [congruence|]. simpl pred.
      rewrite Nat2Z.inj_succ. unfold Z.succ. rewrite inject_Z_plus. reflexivity. }
    assert (Hwf3 : wf (set_count j max_requests_per_minute st1))
      by (apply wf_set_count; exact Hwf1).
    destruct (contains "429" e || contains "rate" (lower e));
      destruct (Z.of_nat attempt <? Z.of_nat max_retries - 1)%Z eqn:Elast.
    + apply Z.ltb_lt in Elast.
      match goal with
      | |- (_ <= clock (retry_loop _ _ _ _ _ _ ?s ?x).2)%Q =>
        pose proof (IH (S attempt) max_retries text s x Hwf3 ltac:(lia) Hdown) as H;
        pose proof (sleep_uniform_clock (5 # 10) (15 # 10)
                      (mkWorld (clock w1) (text :: calls w1) (draws w1) (ticks w1))
                      ltac:(lra)) as Hs
      end.
      simpl clock in Hs at 1. rewrite (Hpred ltac:(lia)). lra.
    + apply Z.ltb_ge in Elast. assert (remaining = 0%nat) as -> by lia.
      cbn [retry_loop snd pred clock]. change (inject_Z (Z.of_nat 0)) with 0%Q. lra.
    + apply Z.ltb_lt in Elast.
      match goal with
      | |- (_ <= clock (retry_loop _ _ _ _ _ _ ?s ?x).2)%Q =>
        pose proof (IH (S attempt) max_retries text s x Hwf1 ltac:(lia) Hdown) as H;
        pose proof (sleep_uniform_clock (2 # 10) (8 # 10)
                      (mkWorld (clock w1) (text :: calls w1) (draws w1) (ticks w1))
                      ltac:(lra)) as Hs
      end.
      simpl clock in Hs at 1. rewrite (Hpred ltac:(lia)). lra.
    + apply Z.ltb_ge in Elast. assert (remaining = 0%nat) as -> by lia.
      cbn [retry_loop snd pred clock]. change (inject_Z (Z.of_nat 0)) with 0%Q. lra.
Qed.

(** X14. While the port keeps failing on a text, each attempt of
    [translate_with_smart_retry] but the last is followed by a sleep of at
    least 0.2s: with [max_retries] attempts the call takes at least
    [0.2 * (max_retries - 1)] seconds of the clock. *)
Theorem translate_with_smart_retry_backs_off
    (text : string) (max_retries : nat) (st : SmartTranslator) (w : World) :
  wf st ->
  (forall h, exists e, port h text = Failed e) ->
  (clock w + inject_Z (Z.of_nat (max_retries - 1)) * (2 # 10)
   <= clock (translate_with_smart_retry port random text max_retries st w).2)%Q.
Proof.
  intros Hwf Hdown. unfold translate_with_smart_retry.
  replace (max_retries - 1)%nat with (pred max_retries) by lia.
  apply retry_loop_backoff; [exact Hwf|reflexivity|exact Hdown].
Qed.

End Backoff.

Lemma translate_with_smart_retry_backs_off_witness :
  (clock world0 + inject_Z (Z.of_nat (3 - 1)) * (2 # 10)
   <= clock (translate_with_smart_retry port_down random_half "Hello" 3
               SmartTranslator_init world0).2)%Q.
Proof.
  apply (translate_with_smart_retry_backs_off port_down random_half
           ltac:(intros n; unfold random_half; lra) "Hello" 3 SmartTranslator_init world0).
  - intros i Hi. unfold n_translators in Hi.
    destruct i as [|[|[|[|i]]]]; try lia; split; eexists; reflexivity.
  - intros h. exists "connection refused"%string. reflexivity.
Defined.

(** ** The tally of translated lines *)

Section Tally.

Variable port : list string -> string -> PortResult.
Variable random : nat -> Q.
Variable sched : nat -> nat.
Variable SubRipTime : Type.
Variable to_time : SubRipTime -> outcome time.
Variable from_string : string -> outcome (list (SubRipItem SubRipTime)).

(** X15. The number of translated lines that [main] reports for a run counts
    the parsed entries of the files that succeeded: it is at most the number
    of entries parsed from all the files, and exactly that number when no
    file of the run failed. *)
Theorem total_lines_translated_of_run (files : list FileInfo) (w : World) :
  let results :=
    (translate_multiple_files_sequential port random sched SubRipTime to_time
       from_string files w).1 in
  (total_lines_translated results
   <= list_sum (map (parsed_entries SubRipTime from_string) files))%nat /\
  (success_count results = length files ->
   total_lines_translated results
   = list_sum (map (parsed_entries SubRipTime from_string) files)).
Proof.
  revert w. induction files as [|f files IH]; intros w; [split; reflexivity|].
  cbn [translate_multiple_files_sequential].
  pose proof (translate_single_file_ultra_fast_result port random sched SubRipTime
                to_time from_string (content f) (name f) w) as [_ Hres].
  destruct (translate_single_file_ultra_fast port random sched SubRipTime to_time
              from_string (content f) (name f) w) as [result w1].
  specialize (IH (sleep (2 # 10) w1)).
  pose proof (translate_multiple_files_sequential_length port random sched SubRipTime
                to_time from_string files (sleep (2 # 10) w1)) as Hlen.
  destruct (translate_multiple_files_sequential port random sched SubRipTime to_time
              from_string files (sleep (2 # 10) w1)) as [results w2].
  cbn [fst snd] in IH, Hres, Hlen |- *. destruct IH as [IHle IHeq].
  pose proof (success_count_le results) as Hsc.
  unfold total_lines_translated, success_count in *. cbn [map list_sum length].
  unfold parsed_entries at 1 3.
  destruct (from_string (content f)) as [subs|e].
  - destruct (srt_to_string SubRipTime to_time _); subst result; simpl; split; lia.
  - subst result. simpl. split; lia.
Qed.

End Tally.
